(** * pokemon/api.py: fetch-and-extract pipeline over PokeAPI documents

    A shallow embedding of [src/pokemon/api.py]: the JSON documents that
    [requests.get(...).json()] returns, the Python operations the three
    classes apply to them (subscripting, iteration, [str] methods, [dict]
    item assignment), and the methods of [PokemonDataFetcher],
    [PokemonParser] and [Pokemon] as computations in a small state and
    error monad whose state holds the stored document and the log of the
    requests issued so far.

    Conventions.
    - Text is modelled by [string], a sequence of 8-bit characters.  The
      code compares and copies text and replaces newlines by spaces, which
      the model does on the characters as they are.
    - The code changes letter case with [str.lower], [str.capitalize] and
      [str.title].  What these return is decided by the Python
      implementation and its Unicode tables, which are no part of the
      repository: the methods are a parameter of the model, [StrMethods],
      and [AsciiCase] says what they do on ASCII text.
    - JSON numbers are the integers ([game_index], [base_stat] and
      [accuracy] are integers in the service's documents).
    - A raised Python exception is an [Err] result carrying its class. *)

From Stdlib Require Import List String Ascii ZArith NArith Bool Lia.
Import ListNotations.

Local Open Scope string_scope.
Local Open Scope list_scope.

(* ================================================================== *)
(** ** Letter case on ASCII text *)

Module AsciiCase.

(** The codes of the capital letters, 65 to 90, and of the small letters,
    97 to 122. *)
Definition upper_code (n : N) : N :=
  if ((97 <=? n) && (n <=? 122))%N then (n - 32)%N else n.

Definition lower_code (n : N) : N :=
  if ((65 <=? n) && (n <=? 90))%N then (n + 32)%N else n.

Definition letter_code (n : N) : bool :=
  ((65 <=? n) && (n <=? 90) || (97 <=? n) && (n <=? 122))%N.

Definition is_upper (c : ascii) : bool :=
  let n := N_of_ascii c in (65 <=? n)%N && (n <=? 90)%N.

Definition is_lower (c : ascii) : bool :=
  let n := N_of_ascii c in (97 <=? n)%N && (n <=? 122)%N.

(** [_PyUnicode_IsCased] on the ASCII range: the letters. *)
Definition is_cased (c : ascii) : bool := is_upper c || is_lower c.

Definition to_lower (c : ascii) : ascii :=
  if is_upper c then ascii_of_N (N_of_ascii c + 32) else c.

Definition to_upper (c : ascii) : ascii :=
  if is_lower c then ascii_of_N (N_of_ascii c - 32) else c.

Definition is_ascii (c : ascii) : bool := (N_of_ascii c <? 128)%N.

(** Text of ASCII characters only. *)
Fixpoint ascii_only (s : string) : bool :=
  match s with
  | EmptyString => true
  | String c r => is_ascii c && ascii_only r
  end.

(** [s.lower()] on ASCII text. *)
Fixpoint lower (s : string) : string :=
  match s with
  | EmptyString => EmptyString
  | String c r => String (to_lower c) (lower r)
  end.

(** [s.upper()] on ASCII text. *)
Fixpoint upper (s : string) : string :=
  match s with
  | EmptyString => EmptyString
  | String c r => String (to_upper c) (upper r)
  end.

(** [s.capitalize()] on ASCII text: the first character upper-cased, the
    others lower-cased. *)
Definition capitalize (s : string) : string :=
  match s with
  | EmptyString => EmptyString
  | String c r => String (to_upper c) (lower r)
  end.

(** [s.title()] on ASCII text, CPython's loop: a character that follows a
    cased character is lower-cased, any other is title-cased
    (upper-cased). *)
Fixpoint title_from (previous_is_cased : bool) (s : string) : string :=
  match s with
  | EmptyString => EmptyString
  | String c r =>
      String (if previous_is_cased then to_lower c else to_upper c)
             (title_from (is_cased c) r)
  end.

Definition title (s : string) : string := title_from false s.

(** The glossary's title-case on ASCII text, in the spec's words: "first
    letter of each word upper-cased, rest unchanged".  A word is a maximal
    run of letters, as for [title]. *)
Fixpoint title_rest_unchanged_from (previous_is_cased : bool) (s : string)
  : string :=
  match s with
  | EmptyString => EmptyString
  | String c r =>
      String (if previous_is_cased then c else to_upper c)
             (title_rest_unchanged_from (is_cased c) r)
  end.

Definition title_rest_unchanged (s : string) : string :=
  title_rest_unchanged_from false s.

(** Whether position [i] of [s] comes right after a letter. *)
Definition follows_letter (s : string) (i : nat) : bool :=
  match i with
  | O => false
  | S j =>
      match String.get j s with
      | Some p => letter_code (N_of_ascii p)
      | None => false
      end
  end.

End AsciiCase.

(* ================================================================== *)
(** ** Python [str] methods used by the parser *)

Module PyStr.

(** [s.replace(old, new)] for one-character [old] and [new], the form of
    the call [.replace("\n", " ")] in [parse_pokemon_moves]. *)
Fixpoint replace (old new : ascii) (s : string) : string :=
  match s with
  | EmptyString => EmptyString
  | String c r =>
      String (if Ascii.eqb c old then new else c) (replace old new r)
  end.

Definition newline : ascii := ascii_of_N 10.
Definition space : ascii := ascii_of_N 32.

End PyStr.

(** The methods of [str] that change letter case: [s.lower()],
    [s.capitalize()] and [s.title()], which the code calls, and
    [s.upper()], which serves to say that two names differ in nothing but
    letter case. *)
Class StrMethods : Type := {
  str_lower : string -> string;
  str_upper : string -> string;
  str_capitalize : string -> string;
  str_title : string -> string
}.

(* ================================================================== *)
(** ** JSON documents and the Python operations applied to them *)

Module Py.

(** The value [requests.get(...).json()] returns; [JNull] is [None]. *)
#[warnings="-register-all"] Inductive json : Type :=
| JNull
| JBool (b : bool)
| JInt (z : Z)
| JStr (s : string)
| JArr (items : list json)
| JObj (items : list (string * json)).

(** Classes of the exceptions the code can raise. *)
Inductive exn : Type :=
| KeyError
| IndexError
| TypeError
| AttributeError
| RequestException
| JSONDecodeError.

Inductive result (A : Type) : Type :=
| Ok (a : A)
| Err (e : exn).

Arguments Ok {A} a.
Arguments Err {A} e.

Fixpoint assoc (k : string) (items : list (string * json)) : option json :=
  match items with
  | [] => None
  | (k', v) :: rest => if String.eqb k' k then Some v else assoc k rest
  end.

(** [v[k]] for a [str] key [k]. *)
Definition getitem (v : json) (k : string) : result json :=
  match v with
  | JObj items =>
      match assoc k items with
      | Some x => Ok x
      | None => Err KeyError
      end
  | _ => Err TypeError
  end.

(** [v[0]]. *)
Definition getitem0 (v : json) : result json :=
  match v with
  | JArr (x :: _) => Ok x
  | JArr [] => Err IndexError
  | JStr (String c _) => Ok (JStr (String c EmptyString))
  | JStr EmptyString => Err IndexError
  | JObj _ => Err KeyError
  | _ => Err TypeError
  end.

Fixpoint chars (s : string) : list json :=
  match s with
  | EmptyString => []
  | String c r => JStr (String c EmptyString) :: chars r
  end.

(** The items [for x in v] visits: the elements of a list, the keys of a
    dict, the characters of a string. *)
Definition iter (v : json) : result (list json) :=
  match v with
  | JArr items => Ok items
  | JObj items => Ok (map (fun kv => JStr (fst kv)) items)
  | JStr s => Ok (chars s)
  | _ => Err TypeError
  end.

(** [v in [s1, ..., sn]] for [str] literals [si]. *)
Definition in_strs (v : json) (l : list string) : bool :=
  match v with
  | JStr s => existsb (String.eqb s) l
  | _ => false
  end.

(** [v.m()] for a [str] method [m]: only a [str] has it. *)
Definition str_method (m : string -> string) (v : json) : result json :=
  match v with
  | JStr s => Ok (JStr (m s))
  | _ => Err AttributeError
  end.

(** *** The insertion-ordered [dict] built by [parse_pokemon_stats] *)

Definition dict : Type := list (json * json).

Definition hashable (k : json) : bool :=
  match k with
  | JArr _ | JObj _ => false
  | _ => true
  end.

(** [==] on hashable keys; [True == 1] and [False == 0]. *)
Definition key_eqb (a b : json) : bool :=
  match a, b with
  | JNull, JNull => true
  | JStr s, JStr t => String.eqb s t
  | JBool x, JBool y => Bool.eqb x y
  | JInt x, JInt y => Z.eqb x y
  | JBool x, JInt y => Z.eqb (Z.b2z x) y
  | JInt x, JBool y => Z.eqb x (Z.b2z y)
  | _, _ => false
  end.

(** An existing key keeps its position (and its key object) and takes the
    new value; a new key goes to the end. *)
Fixpoint dict_store (d : dict) (k v : json) : dict :=
  match d with
  | [] => [(k, v)]
  | (k', v') :: rest =>
      if key_eqb k' k then (k', v) :: rest
      else (k', v') :: dict_store rest k v
  end.

(** [d[k] = v] *)
Definition setitem (d : dict) (k v : json) : result dict :=
  if hashable k then Ok (dict_store d k v) else Err TypeError.

Fixpoint dict_get (d : dict) (k : json) : option json :=
  match d with
  | [] => None
  | (k', v) :: rest => if key_eqb k' k then Some v else dict_get rest k
  end.

Definition dict_keys (d : dict) : list json := map fst d.

End Py.

Import Py.

(* ================================================================== *)
(** ** The classes of [api.py] *)

Record PokemonDataFetcher : Type := {
  fetcher_pk_name : string;
  pokemon_json : json
}.

Record PokemonParser : Type := {
  pokemon_data : json
}.

Record Pokemon : Type := {
  pk_name : string;
  data_fetcher : PokemonDataFetcher;
  parser : PokemonParser
}.

(** The [dict] appended to [moves] by [parse_pokemon_moves]. *)
Record Move : Type := {
  name : json;
  description : json;
  accuracy : json;
  dmg_type : json
}.

(** What a parser method runs on: the parser object and the arguments of
    the calls of [requests.get] made so far, oldest first. *)
Record state : Type := {
  self : PokemonParser;
  requests_log : list json
}.

Definition M (A : Type) : Type := state -> result A * state.

Definition ret {A} (a : A) : M A := fun s => (Ok a, s).

Definition bind {A B} (m : M A) (k : A -> M B) : M B :=
  fun s =>
    match m s with
    | (Ok a, s') => k a s'
    | (Err e, s') => (Err e, s')
    end.

Definition lift {A} (r : result A) : M A := fun s => (r, s).

Notation "x <- m ;; k" := (bind m (fun x => k))
  (at level 61, m at next level, right associativity).

Definition self_pokemon_data : M json :=
  fun s => (Ok (pokemon_data (self s)), s).

Section Api.

Context {U : StrMethods}.

(** The transport, [requests.get(url).json()]: its answer may depend on
    the calls made before. *)
Variable http : list json -> json -> result json.

Definition requests_get_json (url : json) : M json :=
  fun s =>
    (http (requests_log s) url,
     {| self := self s; requests_log := requests_log s ++ [url] |}).

Definition base_url : string := "https://pokeapi.co/api/v2/pokemon/".

Definition request_path (pk_name : string) : string :=
  (base_url ++ str_lower pk_name)%string.

(** [PokemonDataFetcher.__init__] *)
Definition PokemonDataFetcher_init (pk_name : string) (log : list json)
  : result PokemonDataFetcher * list json :=
  let url := JStr (request_path pk_name) in
  (match http log url with
   | Ok doc => Ok {| fetcher_pk_name := pk_name; pokemon_json := doc |}
   | Err e => Err e
   end,
   log ++ [url]).

Definition get_pokemon_data (f : PokemonDataFetcher) : json :=
  pokemon_json f.

(** [PokemonParser.__init__] *)
Definition PokemonParser_init (pokemon_data : json) : PokemonParser :=
  {| pokemon_data := pokemon_data |}.

(** The body of the loop of [parse_pokemon_moves]. *)
Definition parse_move (move : json) : M Move :=
  m <- lift (getitem move "move") ;;
  url <- lift (getitem m "url") ;;
  move_data <- requests_get_json url ;;
  m1 <- lift (getitem move "move") ;;
  nm <- lift (getitem m1 "name") ;;
  fl <- lift (getitem move_data "flavor_text_entries") ;;
  f0 <- lift (getitem0 fl) ;;
  ft <- lift (getitem f0 "flavor_text") ;;
  r <- lift (str_method (PyStr.replace PyStr.newline PyStr.space) ft) ;;
  d <- lift (str_method str_capitalize r) ;;
  a <- lift (getitem move_data "accuracy") ;;
  dc <- lift (getitem move_data "damage_class") ;;
  dt <- lift (getitem dc "name") ;;
  ret {| name := nm; description := d; accuracy := a; dmg_type := dt |}.

Fixpoint moves_loop (items : list json) (moves : list Move)
  : M (list Move) :=
  match items with
  | [] => ret moves
  | move :: rest =>
      r <- parse_move move ;;
      moves_loop rest (moves ++ [r])
  end.

Definition parse_pokemon_moves : M (list Move) :=
  doc <- self_pokemon_data ;;
  ms <- lift (getitem doc "moves") ;;
  items <- lift (iter ms) ;;
  moves_loop items [].

(** The body of the loops of [parse_pokemon_types] and
    [parse_pokemon_abilities]: [x[key]["name"].title()]. *)
Definition titled_name (key : string) (x : json) : M json :=
  t <- lift (getitem x key) ;;
  n <- lift (getitem t "name") ;;
  lift (str_method str_title n).

Fixpoint names_loop (key : string) (items : list json) (acc : list json)
  : M (list json) :=
  match items with
  | [] => ret acc
  | x :: rest =>
      n <- titled_name key x ;;
      names_loop key rest (acc ++ [n])
  end.

Definition parse_pokemon_types : M (list json) :=
  doc <- self_pokemon_data ;;
  ts <- lift (getitem doc "types") ;;
  items <- lift (iter ts) ;;
  names_loop "type" items [].

Fixpoint stats_loop (items : list json) (stats : dict) : M dict :=
  match items with
  | [] => ret stats
  | stat :: rest =>
      b <- lift (getitem stat "base_stat") ;;
      st <- lift (getitem stat "stat") ;;
      n <- lift (getitem st "name") ;;
      stats' <- lift (setitem stats n b) ;;
      stats_loop rest stats'
  end.

Definition parse_pokemon_stats : M dict :=
  doc <- self_pokemon_data ;;
  ss <- lift (getitem doc "stats") ;;
  items <- lift (iter ss) ;;
  stats_loop items [].

Definition parse_pokemon_abilities : M (list json) :=
  doc <- self_pokemon_data ;;
  abs <- lift (getitem doc "abilities") ;;
  items <- lift (iter abs) ;;
  names_loop "ability" items [].

(** Falling off the end of the loop returns [None]. *)
Fixpoint game_version_loop (items : list json) : M json :=
  match items with
  | [] => ret JNull
  | version :: rest =>
      v <- lift (getitem version "version") ;;
      n <- lift (getitem v "name") ;;
      if in_strs n ["diamond"; "black"]
      then lift (getitem version "game_index")
      else game_version_loop rest
  end.

Definition parse_pokemon_game_version : M json :=
  doc <- self_pokemon_data ;;
  gs <- lift (getitem doc "game_indices") ;;
  items <- lift (iter gs) ;;
  game_version_loop items.

(** [Pokemon.__init__] *)
Definition Pokemon_init (pk_name : string) (log : list json)
  : result Pokemon * list json :=
  match PokemonDataFetcher_init pk_name log with
  | (Ok f, log') =>
      (Ok {| pk_name := pk_name;
             data_fetcher := f;
             parser := PokemonParser_init (get_pokemon_data f) |},
       log')
  | (Err e, log') => (Err e, log')
  end.

(** [self.parser.m()] inside a method of [Pokemon]. *)
Definition delegate {A} (m : M A) (p : Pokemon) (log : list json)
  : result A * (Pokemon * list json) :=
  let (r, s) := m {| self := parser p; requests_log := log |} in
  (r, ({| pk_name := pk_name p;
          data_fetcher := data_fetcher p;
          parser := self s |},
       requests_log s)).

Definition get_moves := delegate parse_pokemon_moves.
Definition get_types := delegate parse_pokemon_types.
Definition get_stats := delegate parse_pokemon_stats.
Definition get_abilities := delegate parse_pokemon_abilities.
Definition get_game_version := delegate parse_pokemon_game_version.

End Api.

(* ================================================================== *)
(** ** Shapes of the documents the claims speak about *)

(** An entry of [game_indices]: [{"version": {"name": n, ...},
    "game_index": g, ...}]. *)
Definition game_index_entry (e : json) (p : string * json) : Prop :=
  exists v,
    getitem e "version" = Ok v /\
    getitem v "name" = Ok (JStr (fst p)) /\
    getitem e "game_index" = Ok (snd p).

(** An entry of [stats]: [{"stat": {"name": n, ...}, "base_stat": b, ...}]. *)
Definition stat_entry (e : json) (p : string * json) : Prop :=
  exists st,
    getitem e "stat" = Ok st /\
    getitem st "name" = Ok (JStr (fst p)) /\
    getitem e "base_stat" = Ok (snd p).

(** An entry of [types]: [{"type": {"name": n, ...}, ...}]. *)
Definition type_entry (e : json) (n : string) : Prop :=
  exists t, getitem e "type" = Ok t /\ getitem t "name" = Ok (JStr n).

(** An entry of [moves]: [{"move": {"name": nm, "url": url, ...}, ...}]. *)
Definition move_entry (e : json) (nm url : json) : Prop :=
  exists m,
    getitem e "move" = Ok m /\
    getitem m "name" = Ok nm /\
    getitem m "url" = Ok url.

(** The version names [parse_pokemon_game_version] looks for. *)
Definition wanted (n : string) : Prop := n = "diamond" \/ n = "black".

(** The value of the last pair of [l] whose key is [n]. *)
Fixpoint last_value (n : string) (l : list (string * json)) : option json :=
  match l with
  | [] => None
  | (k, v) :: rest =>
      match last_value n rest with
      | Some w => Some w
      | None => if String.eqb k n then Some v else None
      end
  end.

(** The distinct elements of [l], each at the place of its first
    occurrence. *)
Fixpoint first_occurrences (seen l : list string) : list string :=
  match l with
  | [] => []
  | x :: rest =>
      if existsb (String.eqb x) seen then first_occurrences seen rest
      else x :: first_occurrences (seen ++ [x]) rest
  end.

(** The stores the loop of [parse_pokemon_stats] performs on well-formed
    entries. *)
Definition store_entry (d : dict) (p : string * json) : dict :=
  dict_store d (JStr (fst p)) (snd p).

(** The state after one more call of [requests.get]. *)
Definition logged (s : state) (url : json) : state :=
  {| self := self s; requests_log := requests_log s ++ [url] |}.

(** A move-detail document with a first flavor text [text], an accuracy
    field [acc] and a damage class named [dt]. *)
Definition move_detail (detail : json) (text : string) (acc dt : json)
  : Prop :=
  exists f0 rest dc,
    getitem detail "flavor_text_entries" = Ok (JArr (f0 :: rest)) /\
    getitem f0 "flavor_text" = Ok (JStr text) /\
    getitem detail "accuracy" = Ok acc /\
    getitem detail "damage_class" = Ok dc /\
    getitem dc "name" = Ok dt.

(** A computation that leaves the parser object as it found it, whether it
    returns or raises. *)
Definition keeps_self {A} (m : M A) : Prop :=
  forall s, self (snd (m s)) = self s.

(* ================================================================== *)
(** ** Sample documents *)

Definition version_entry (n : string) (g : Z) : json :=
  JObj [("game_index", JInt g);
        ("version", JObj [("name", JStr n); ("url", JStr "https://pokeapi.co/api/v2/")])].

Definition stat_item (n : string) (b : Z) : json :=
  JObj [("base_stat", JInt b); ("effort", JInt 0);
        ("stat", JObj [("name", JStr n); ("url", JStr "https://pokeapi.co/api/v2/")])].

Definition type_item (n : string) : json :=
  JObj [("slot", JInt 1); ("type", JObj [("name", JStr n); ("url", JStr "https://pokeapi.co/api/v2/")])].

Definition move_item (n url : string) : json :=
  JObj [("move", JObj [("name", JStr n); ("url", JStr url)]);
        ("version_group_details", JArr [])].

Definition tackle_url : string := "https://pokeapi.co/api/v2/move/33/".

(** The flavor text "tackle\nattack" of the spec's example. *)
Definition tackle_text : string :=
  ("tackle" ++ String PyStr.newline "attack")%string.

(** A move-detail document whose accuracy is null. *)
Definition tackle_detail : json :=
  JObj [("accuracy", JNull);
        ("damage_class", JObj [("name", JStr "physical")]);
        ("flavor_text_entries",
         JArr [JObj [("flavor_text", JStr tackle_text)];
               JObj [("flavor_text", JStr "other")]])].

(** A move-detail document without flavor texts. *)
Definition bare_detail : json :=
  JObj [("accuracy", JInt 100);
        ("damage_class", JObj [("name", JStr "physical")]);
        ("flavor_text_entries", JArr [])].

(** A move-detail document without an accuracy key. *)
Definition no_accuracy_detail : json :=
  JObj [("damage_class", JObj [("name", JStr "status")]);
        ("flavor_text_entries",
         JArr [JObj [("flavor_text", JStr "growl")]])].

(** A transport that answers every request with [detail]. *)
Definition serve (detail : json) : list json -> json -> result json :=
  fun _ url =>
    match url with
    | JStr _ => Ok detail
    | _ => Err RequestException
    end.

Definition pikachu : json :=
  JObj [("game_indices",
         JArr [version_entry "red" 1; version_entry "black" 5;
               version_entry "diamond" 9]);
        ("moves", JArr [move_item "tackle" tackle_url]);
        ("stats", JArr [stat_item "hp" 35; stat_item "attack" 55]);
        ("types", JArr [type_item "electric"])].

(** A document with no wanted version, a repeated stat name and a type
    name with capitals after its first letter. *)
Definition odd : json :=
  JObj [("game_indices",
         JArr [version_entry "red" 1; version_entry "blue" 2]);
        ("moves", JArr [move_item "growl" "https://pokeapi.co/api/v2/move/45/"]);
        ("stats",
         JArr [stat_item "hp" 35; stat_item "attack" 55; stat_item "hp" 40]);
        ("types", JArr [type_item "fIRE"])].

Definition holding (doc : json) : state :=
  {| self := PokemonParser_init doc; requests_log := [] |}.

(* ================================================================== *)
(** ** Notions used for the rest of the code *)

(** An entry of [abilities]: [{"ability": {"name": n, ...}, ...}]. *)
Definition ability_entry (e : json) (n : string) : Prop :=
  exists t, getitem e "ability" = Ok t /\ getitem t "name" = Ok (JStr n).

(** The locator a move entry carries, [e["move"]["url"]]. *)
Definition url_of (e u : json) : Prop :=
  exists m, getitem e "move" = Ok m /\ getitem m "url" = Ok u.

(** The record [r] carries the name of the move entry [e]. *)
Definition named_after (e : json) (r : Move) : Prop :=
  exists m, getitem e "move" = Ok m /\ getitem m "name" = Ok (name r).

(** A computation that leaves the whole state, the request log included,
    as it found it. *)
Definition stateless {A} (m : M A) : Prop := forall s, snd (m s) = s.

(** No key of the list equals, by Python's [==], a key after it. *)
Fixpoint distinct_keys (ks : list json) : Prop :=
  match ks with
  | [] => True
  | k :: rest =>
      Forall (fun k2 => key_eqb k k2 = false) rest /\ distinct_keys rest
  end.

(** The parser of a [Pokemon] holds the document its fetcher holds. *)
Definition consistent (p : Pokemon) : Prop :=
  pokemon_data (parser p) = get_pokemon_data (data_fetcher p).

Definition ability_item (n : string) (hidden : bool) : json :=
  JObj [("ability", JObj [("name", JStr n);
                          ("url", JStr "https://pokeapi.co/api/v2/")]);
        ("is_hidden", JBool hidden)].

Definition thunder_url : string := "https://pokeapi.co/api/v2/move/87/".

(** A document with abilities, two moves, and entries of [game_indices]
    after the first wanted one that are not even objects. *)
Definition raichu : json :=
  JObj [("abilities",
         JArr [ability_item "static" false; ability_item "lightning-rod" true]);
        ("game_indices",
         JArr [version_entry "red" 1; version_entry "diamond" 26;
               JNull; JInt 7]);
        ("moves",
         JArr [move_item "tackle" tackle_url; move_item "thunder" thunder_url]);
        ("stats", JArr [stat_item "hp" 60; stat_item "speed" 110]);
        ("types", JArr [type_item "electric"])].

(** A transport that fails on every request. *)
Definition unreachable : list json -> json -> result json :=
  fun _ _ => Err RequestException.

(* ================================================================== *)
(** ** Letter case: what is assumed of [str], and a sample of it *)

(** On ASCII text the four methods are those of [AsciiCase]. *)
Definition ascii_spec (U : StrMethods) : Prop :=
  forall s, AsciiCase.ascii_only s = true ->
    str_lower s = AsciiCase.lower s /\
    str_upper s = AsciiCase.upper s /\
    str_capitalize s = AsciiCase.capitalize s /\
    str_title s = AsciiCase.title s.

(** Two names that differ in nothing but letter case: putting both in
    upper case, or both in lower case, makes them equal. *)
Definition differ_only_in_case {U : StrMethods} (a b : string) : Prop :=
  str_upper a = str_upper b \/ str_lower a = str_lower b.

(** The one-letter name made of U+0131, LATIN SMALL LETTER DOTLESS I: the
    characters 196 and 177 of its UTF-8 encoding. *)
Definition dotless_i : string :=
  String (ascii_of_N 196) (String (ascii_of_N 177) EmptyString).

(** [s.upper()] on ASCII text and on the dotless i, whose upper case is
    the letter I. *)
Definition sample_upper (s : string) : string :=
  if String.eqb s dotless_i then "I" else AsciiCase.upper s.

(** The methods as Python has them on ASCII text and on the dotless i
    (which [str.lower] leaves as it is): the samples below hold such text
    only. *)
Definition sample_methods : StrMethods := {|
  str_lower := AsciiCase.lower;
  str_upper := sample_upper;
  str_capitalize := AsciiCase.capitalize;
  str_title := AsciiCase.title
|}.

Section Facts.

Context {U : StrMethods}.

(* ================================================================== *)
(** ** Facts about the monad and the Python primitives *)

Lemma bind_lift_ok {A B} (a : A) (k : A -> M B) (s : state) :
  bind (lift (Ok a)) k s = k a s.
Proof. reflexivity. Qed.

Lemma bind_lift_err {A B} (e : exn) (k : A -> M B) (s : state) :
  bind (lift (Err e)) k s = (Err e, s).
Proof. reflexivity. Qed.

Lemma bind_ret {A B} (a : A) (k : A -> M B) (s : state) :
  bind (ret a) k s = k a s.
Proof. reflexivity. Qed.

Lemma bind_self_pokemon_data {B} (k : json -> M B) (s : state) :
  bind self_pokemon_data k s = k (pokemon_data (self s)) s.
Proof. reflexivity. Qed.

(** Rewrites the next subscript of a monadic computation with a hypothesis
    that gives its value. *)
Ltac next := repeat (rewrite bind_lift_ok; cbv beta).
Ltac step H := rewrite H; next; rewrite ?bind_lift_err.

Lemma in_strs_wanted (n : string) :
  in_strs (JStr n) ["diamond"; "black"] = true <-> wanted n.
Proof.
  unfold in_strs, wanted; cbn [existsb].
  rewrite !orb_true_iff, !String.eqb_eq. intuition discriminate.
Qed.

Lemma in_strs_not_wanted (n : string) :
  ~ wanted n -> in_strs (JStr n) ["diamond"; "black"] = false.
Proof.
  intros H. destruct (in_strs (JStr n) ["diamond"; "black"]) eqn:E; trivial.
  apply in_strs_wanted in E. contradiction.
Qed.

(** *** [parse_pokemon_game_version] *)

Lemma game_version_loop_first (es : list json) :
  forall pre p post (s : state),
    Forall2 game_index_entry es (pre ++ p :: post) ->
    (forall q, In q pre -> ~ wanted (fst q)) ->
    wanted (fst p) ->
    game_version_loop es s = (Ok (snd p), s).
Proof.
  induction es as [|e es IH]; intros pre p post s F Hpre Hp.
  - inversion F as [E|]. destruct pre; discriminate.
  - destruct pre as [|q pre]; cbn [app] in F; inversion F as [|? ? ? ? He Hes];
      subst; destruct He as (v & Hv & Hn & Hg); cbn [game_version_loop].
    + step Hv. step Hn.
      rewrite (proj2 (in_strs_wanted _) Hp). rewrite Hg. reflexivity.
    + step Hv. step Hn.
      rewrite in_strs_not_wanted by (apply Hpre; left; reflexivity).
      apply (IH pre p post); auto. intros r Hr. apply Hpre. right. exact Hr.
Qed.

Lemma game_version_loop_none (es : list json) :
  forall entries (s : state),
    Forall2 game_index_entry es entries ->
    (forall q, In q entries -> ~ wanted (fst q)) ->
    game_version_loop es s = (Ok JNull, s).
Proof.
  induction es as [|e es IH]; intros entries s F Hno.
  - reflexivity.
  - inversion F as [|? q ? entries' He Hes]; subst.
    destruct He as (v & Hv & Hn & Hg); cbn [game_version_loop].
    step Hv. step Hn.
    rewrite in_strs_not_wanted by (apply Hno; left; reflexivity).
    apply (IH entries'); auto. intros r Hr. apply Hno. right. exact Hr.
Qed.

(** C1. On a document whose [game_indices] is a list of entries with a
    version name and a game index, [parse_pokemon_game_version] returns the
    game index of the first entry, in document order, whose version name is
    "diamond" or "black": when the entries before it carry other names, the
    entries after it have no influence on the result. *)
Theorem game_version_first_match (s : state) (es : list json)
    (pre post : list (string * json)) (n : string) (g : json) :
  getitem (pokemon_data (self s)) "game_indices" = Ok (JArr es) ->
  Forall2 game_index_entry es (pre ++ (n, g) :: post) ->
  (forall q, In q pre -> ~ wanted (fst q)) ->
  wanted n ->
  parse_pokemon_game_version s = (Ok g, s).
Proof.
  intros Hdoc F Hpre Hn. unfold parse_pokemon_game_version.
  rewrite bind_self_pokemon_data. step Hdoc. cbn [iter]. rewrite bind_lift_ok.
  exact (game_version_loop_first es pre (n, g) post s F Hpre Hn).
Qed.

(** C5. On a document whose [game_indices] list is empty or has no entry
    named "diamond" or "black", [parse_pokemon_game_version] raises nothing
    and returns [None], a value that is neither zero nor an error. *)
Theorem game_version_no_match (s : state) (es : list json)
    (entries : list (string * json)) :
  getitem (pokemon_data (self s)) "game_indices" = Ok (JArr es) ->
  Forall2 game_index_entry es entries ->
  (forall q, In q entries -> ~ wanted (fst q)) ->
  parse_pokemon_game_version s = (Ok JNull, s) /\
  JNull <> JInt 0 /\
  (forall e : exn, fst (parse_pokemon_game_version s) <> Err e).
Proof.
  intros Hdoc F Hno.
  assert (R : parse_pokemon_game_version s = (Ok JNull, s)).
  { unfold parse_pokemon_game_version.
    rewrite bind_self_pokemon_data. step Hdoc. cbn [iter].
    rewrite bind_lift_ok.
    exact (game_version_loop_none es entries s F Hno). }
  split; [exact R|]. split; [discriminate|].
  intros e. rewrite R. discriminate.
Qed.

(** *** [parse_pokemon_stats] *)

Lemma stats_loop_run (es : list json) :
  forall entries (d : dict) (s : state),
    Forall2 stat_entry es entries ->
    stats_loop es d s = (Ok (fold_left store_entry entries d), s).
Proof.
  induction es as [|e es IH]; intros entries d s F;
    inversion F as [|? p ? entries' He Hes]; subst.
  - reflexivity.
  - destruct He as (st & Hst & Hn & Hb). cbn [stats_loop fold_left].
    step Hb. step Hst. step Hn. cbn [setitem hashable].
    rewrite bind_lift_ok. apply IH. exact Hes.
Qed.

Lemma key_eqb_str (k : json) (n : string) :
  key_eqb k (JStr n) = true -> k = JStr n.
Proof.
  destruct k; cbn; try discriminate.
  intros H. apply String.eqb_eq in H. now subst.
Qed.

Lemma dict_get_store (d : dict) (n m : string) (v : json) :
  dict_get (dict_store d (JStr n) v) (JStr m)
  = if String.eqb n m then Some v else dict_get d (JStr m).
Proof.
  induction d as [|[k w] d IH]; cbn [dict_store dict_get].
  - cbn [key_eqb]. reflexivity.
  - destruct (key_eqb k (JStr n)) eqn:E.
    + apply key_eqb_str in E. subst k. cbn [dict_get key_eqb].
      destruct (String.eqb n m); reflexivity.
    + cbn [dict_get]. rewrite IH.
      destruct (key_eqb k (JStr m)) eqn:E'; trivial.
      apply key_eqb_str in E'. subst k. cbn [key_eqb] in E.
      destruct (String.eqb_spec n m) as [->|]; trivial.
      rewrite String.eqb_refl in E. discriminate.
Qed.

Lemma dict_get_fold (entries : list (string * json)) :
  forall (d : dict) (n : string),
    dict_get (fold_left store_entry entries d) (JStr n)
    = match last_value n entries with
      | Some w => Some w
      | None => dict_get d (JStr n)
      end.
Proof.
  induction entries as [|[k v] entries IH]; intros d n.
  - reflexivity.
  - cbn [fold_left last_value]. rewrite IH. unfold store_entry.
    cbn [fst snd]. rewrite dict_get_store.
    destruct (last_value n entries); trivial.
    destruct (String.eqb k n); reflexivity.
Qed.

Lemma map_JStr_nil (l : list string) : [] = map JStr l -> l = [].
Proof. destruct l; [trivial | discriminate]. Qed.

Lemma dict_keys_store (d : dict) :
  forall (seen : list string) (n : string) (v : json),
    dict_keys d = map JStr seen ->
    dict_keys (dict_store d (JStr n) v)
    = map JStr (if existsb (String.eqb n) seen then seen else seen ++ [n]).
Proof.
  induction d as [|[k w] d IH]; intros seen n v H.
  - apply map_JStr_nil in H. subst seen. reflexivity.
  - destruct seen as [|x seen]; [discriminate|].
    cbn [dict_keys map fst] in H. injection H as -> H.
    cbn [dict_store key_eqb existsb]. rewrite (String.eqb_sym n x).
    destruct (String.eqb x n); cbn [orb].
    + cbn [dict_keys map fst]. now rewrite <- H.
    + cbn [dict_keys map fst]. fold (dict_keys (dict_store d (JStr n) v)).
      rewrite (IH seen n v H).
      destruct (existsb (String.eqb n) seen); reflexivity.
Qed.

Lemma dict_keys_fold (entries : list (string * json)) :
  forall (d : dict) (seen : list string),
    dict_keys d = map JStr seen ->
    dict_keys (fold_left store_entry entries d)
    = map JStr (seen ++ first_occurrences seen (map fst entries)).
Proof.
  induction entries as [|[k v] entries IH]; intros d seen H.
  - cbn. now rewrite app_nil_r.
  - cbn [fold_left map fst first_occurrences].
    pose proof (dict_keys_store d seen k v H) as K.
    destruct (existsb (String.eqb k) seen).
    + apply IH. exact K.
    + rewrite (IH (store_entry d (k, v)) _ K). now rewrite <- app_assoc.
Qed.

Lemma first_occurrences_In (l : list string) :
  forall (seen : list string) (x : string),
    In x (first_occurrences seen l) <-> In x l /\ ~ In x seen.
Proof.
  induction l as [|y l IH]; intros seen x; cbn [first_occurrences In].
  - tauto.
  - destruct (existsb (String.eqb y) seen) eqn:E.
    + apply existsb_exists in E. destruct E as (z & Hz & Hyz).
      apply String.eqb_eq in Hyz. subst z.
      rewrite IH. intuition congruence.
    + assert (Hy : ~ In y seen).
      { intros Hin. rewrite <- not_true_iff_false in E. apply E.
        apply existsb_exists. exists y. split; trivial.
        apply String.eqb_refl. }
      cbn [In]. rewrite IH, in_app_iff. cbn [In].
      destruct (string_dec y x) as [->|Hne]; intuition congruence.
Qed.

(** What [parse_pokemon_stats] returns on well-formed entries. *)
Lemma parse_pokemon_stats_run (s : state) (es : list json)
    (entries : list (string * json)) :
  getitem (pokemon_data (self s)) "stats" = Ok (JArr es) ->
  Forall2 stat_entry es entries ->
  parse_pokemon_stats s = (Ok (fold_left store_entry entries []), s).
Proof.
  intros Hdoc F. unfold parse_pokemon_stats.
  rewrite bind_self_pokemon_data. step Hdoc. cbn [iter].
  rewrite bind_lift_ok. apply stats_loop_run. exact F.
Qed.

(** C3. On a document whose [stats] is a list of entries with a stat name
    and a base stat, [parse_pokemon_stats] returns a dict that maps each
    stat name of the list to the base stat of its last occurrence and has
    no key but the stat names of the list. *)
Theorem stats_last_write_wins (s : state) (es : list json)
    (entries : list (string * json)) :
  getitem (pokemon_data (self s)) "stats" = Ok (JArr es) ->
  Forall2 stat_entry es entries ->
  exists d : dict,
    parse_pokemon_stats s = (Ok d, s) /\
    (forall n, dict_get d (JStr n) = last_value n entries) /\
    (forall k, In k (dict_keys d) <->
               exists n, k = JStr n /\ In n (map fst entries)).
Proof.
  intros Hdoc F. exists (fold_left store_entry entries []).
  split; [exact (parse_pokemon_stats_run s es entries Hdoc F)|]. split.
  - intros n. rewrite dict_get_fold. cbn [dict_get].
    destruct (last_value n entries); reflexivity.
  - intros k. rewrite (dict_keys_fold entries [] []) by reflexivity.
    cbn [app]. rewrite in_map_iff. split.
    + intros (n & <- & Hn). exists n. split; trivial.
      now apply first_occurrences_In in Hn.
    + intros (n & -> & Hn). exists n. split; trivial.
      apply first_occurrences_In. split; [exact Hn | intros []].
Qed.

(** C10. On a document whose [stats] list repeats stat names, the keys of
    the dict [parse_pokemon_stats] returns are the distinct stat names, each
    at the place of its first occurrence in the list, while the value of
    each key is the base stat of its last occurrence. *)
Theorem stats_key_order_first_occurrence (s : state) (es : list json)
    (entries : list (string * json)) :
  getitem (pokemon_data (self s)) "stats" = Ok (JArr es) ->
  Forall2 stat_entry es entries ->
  exists d : dict,
    parse_pokemon_stats s = (Ok d, s) /\
    dict_keys d = map JStr (first_occurrences [] (map fst entries)) /\
    (forall n, dict_get d (JStr n) = last_value n entries).
Proof.
  intros Hdoc F. exists (fold_left store_entry entries []).
  split; [exact (parse_pokemon_stats_run s es entries Hdoc F)|]. split.
  - now rewrite (dict_keys_fold entries [] []).
  - intros n. rewrite dict_get_fold. cbn [dict_get].
    destruct (last_value n entries); reflexivity.
Qed.

(** *** [str.replace] and letter case on ASCII text *)

Lemma replace_get (old new : ascii) (s : string) :
  forall (j : nat) (c : ascii),
    String.get j s = Some c ->
    String.get j (PyStr.replace old new s)
    = Some (if Ascii.eqb c old then new else c).
Proof.
  induction s as [|a r IH]; intros j c H; [discriminate|].
  destruct j; cbn [PyStr.replace String.get] in *.
  - now injection H as ->.
  - now apply IH.
Qed.

Lemma replace_length (old new : ascii) (s : string) :
  String.length (PyStr.replace old new s) = String.length s.
Proof. induction s; cbn; [trivial | now rewrite IHs]. Qed.

Lemma replace_ascii_only (s : string) :
  AsciiCase.ascii_only s = true ->
  AsciiCase.ascii_only (PyStr.replace PyStr.newline PyStr.space s) = true.
Proof.
  induction s as [|a r IH]; cbn [AsciiCase.ascii_only PyStr.replace];
    [trivial|].
  rewrite !andb_true_iff. intros [Ha Hr]. split; [|now apply IH].
  destruct (Ascii.eqb a PyStr.newline); [reflexivity | exact Ha].
Qed.

Lemma N_of_to_upper (c : ascii) :
  N_of_ascii (AsciiCase.to_upper c) = AsciiCase.upper_code (N_of_ascii c).
Proof. destruct c as [[] [] [] [] [] [] [] []]; reflexivity. Qed.

Lemma N_of_to_lower (c : ascii) :
  N_of_ascii (AsciiCase.to_lower c) = AsciiCase.lower_code (N_of_ascii c).
Proof. destruct c as [[] [] [] [] [] [] [] []]; reflexivity. Qed.

Lemma title_from_get (s : string) :
  forall (b : bool) (j : nat) (c : ascii),
    String.get j s = Some c ->
    String.get j (AsciiCase.title_from b s)
    = Some (if match j with
               | O => b
               | S _ => AsciiCase.follows_letter s j
               end
            then AsciiCase.to_lower c else AsciiCase.to_upper c).
Proof.
  induction s as [|a r IH]; intros b j c H; [discriminate|].
  destruct j as [|j]; cbn [AsciiCase.title_from String.get] in *.
  - now injection H as ->.
  - rewrite (IH _ _ _ H). f_equal.
    destruct j; cbn [AsciiCase.follows_letter String.get]; trivial.
Qed.

Lemma title_get (s : string) (j : nat) (c : ascii) :
  String.get j s = Some c ->
  String.get j (AsciiCase.title s)
  = Some (if AsciiCase.follows_letter s j
          then AsciiCase.to_lower c else AsciiCase.to_upper c).
Proof.
  intros H. unfold AsciiCase.title.
  rewrite (title_from_get s false j c H). destruct j; reflexivity.
Qed.

Lemma title_from_length (s : string) :
  forall b, String.length (AsciiCase.title_from b s) = String.length s.
Proof. induction s; intros b; cbn; [trivial | now rewrite IHs]. Qed.

Lemma lower_get (s : string) :
  forall (j : nat) (c : ascii),
    String.get j s = Some c ->
    String.get j (AsciiCase.lower s) = Some (AsciiCase.to_lower c).
Proof.
  induction s as [|a r IH]; intros j c H; [discriminate|].
  destruct j; cbn [AsciiCase.lower String.get] in *.
  - now injection H as ->.
  - now apply IH.
Qed.

Lemma lower_length (s : string) :
  String.length (AsciiCase.lower s) = String.length s.
Proof. induction s; cbn; [trivial | now rewrite IHs]. Qed.

Lemma capitalize_get (s : string) (j : nat) (c : ascii) :
  String.get j s = Some c ->
  String.get j (AsciiCase.capitalize s)
  = Some (match j with
          | O => AsciiCase.to_upper c
          | S _ => AsciiCase.to_lower c
          end).
Proof.
  destruct s as [|a r]; intros H; [discriminate|].
  destruct j; cbn [AsciiCase.capitalize String.get] in *.
  - now injection H as ->.
  - now apply lower_get.
Qed.

Lemma capitalize_length (s : string) :
  String.length (AsciiCase.capitalize s) = String.length s.
Proof. destruct s; cbn; [trivial | now rewrite lower_length]. Qed.

Lemma to_lower_to_upper (c : ascii) :
  AsciiCase.to_lower (AsciiCase.to_upper c) = AsciiCase.to_lower c.
Proof. destruct c as [[] [] [] [] [] [] [] []]; reflexivity. Qed.

Lemma lower_upper (s : string) :
  AsciiCase.lower (AsciiCase.upper s) = AsciiCase.lower s.
Proof.
  induction s as [|a r IH]; cbn [AsciiCase.lower AsciiCase.upper]; trivial.
  now rewrite IH, to_lower_to_upper.
Qed.

(** ASCII names that differ in nothing but letter case have the same
    lower case. *)
Lemma lower_differ_only_in_case (a b : string) :
  ascii_spec U ->
  AsciiCase.ascii_only a = true ->
  AsciiCase.ascii_only b = true ->
  differ_only_in_case a b ->
  str_lower a = str_lower b.
Proof.
  intros HU Ha Hb [H|H]; [|exact H].
  destruct (HU a Ha) as (La & Ua & _). destruct (HU b Hb) as (Lb & Ub & _).
  rewrite La, Lb, <- (lower_upper a), <- (lower_upper b).
  now rewrite <- Ua, <- Ub, H.
Qed.

(** *** [parse_pokemon_types] *)

Lemma titled_name_run (key : string) (e : json) (n : string) (s : state) :
  (exists t, getitem e key = Ok t /\ getitem t "name" = Ok (JStr n)) ->
  titled_name key e s = (Ok (JStr (str_title n)), s).
Proof.
  intros (t & Ht & Hn). unfold titled_name. step Ht. step Hn. reflexivity.
Qed.

Lemma names_loop_run (key : string) (es : list json) :
  forall (names : list string) (acc : list json) (s : state),
    Forall2 (fun e n => exists t, getitem e key = Ok t /\
                                  getitem t "name" = Ok (JStr n)) es names ->
    names_loop key es acc s
    = (Ok (acc ++ map (fun n => JStr (str_title n)) names), s).
Proof.
  induction es as [|e es IH]; intros names acc s F;
    inversion F as [|? n ? names' He Hes]; subst.
  - cbn. now rewrite app_nil_r.
  - cbn [names_loop]. unfold bind.
    rewrite (titled_name_run key e n s He), (IH names' _ s Hes).
    cbn [map]. now rewrite <- app_assoc.
Qed.

(** What [str.title] makes of an ASCII name, character by character. *)
Lemma title_ascii (n : string) :
  ascii_spec U ->
  AsciiCase.ascii_only n = true ->
  String.length (str_title n) = String.length n /\
  forall j c, String.get j n = Some c ->
    exists x, String.get j (str_title n) = Some x /\
      N_of_ascii x
      = if AsciiCase.follows_letter n j
        then AsciiCase.lower_code (N_of_ascii c)
        else AsciiCase.upper_code (N_of_ascii c).
Proof.
  intros HU Hn. destruct (HU n Hn) as (_ & _ & _ & ->). split.
  - apply title_from_length.
  - intros j c Hc. rewrite (title_get n j c Hc).
    destruct (AsciiCase.follows_letter n j); eexists; split; try reflexivity.
    + apply N_of_to_lower.
    + apply N_of_to_upper.
Qed.

(** C4, as amended. On a document whose [types] is a list of entries of
    shape [{type: {name}}], [parse_pokemon_types] returns the list, of the
    same length and in source order, of what [str.title] makes of each type
    name; of an ASCII name it makes the name with each character that does
    not follow a letter upper-cased and each character that follows a
    letter lower-cased. *)
Theorem types_title_cased (s : state) (es : list json) (names : list string) :
  getitem (pokemon_data (self s)) "types" = Ok (JArr es) ->
  Forall2 type_entry es names ->
  parse_pokemon_types s = (Ok (map (fun n => JStr (str_title n)) names), s) /\
  List.length (map (fun n => JStr (str_title n)) names) = List.length names /\
  (ascii_spec U ->
   forall n, In n names -> AsciiCase.ascii_only n = true ->
     String.length (str_title n) = String.length n /\
     forall j c, String.get j n = Some c ->
       exists x, String.get j (str_title n) = Some x /\
         N_of_ascii x
         = if AsciiCase.follows_letter n j
           then AsciiCase.lower_code (N_of_ascii c)
           else AsciiCase.upper_code (N_of_ascii c)).
Proof.
  intros Hdoc F. split; [|split].
  - unfold parse_pokemon_types. rewrite bind_self_pokemon_data. step Hdoc.
    cbn [iter]. rewrite bind_lift_ok.
    now rewrite (names_loop_run "type" es names [] s F).
  - apply length_map.
  - intros HU n _ Hn. now apply title_ascii.
Qed.

(** *** [parse_pokemon_moves] *)

Section Moves.

Variable http : list json -> json -> result json.

Lemma bind_requests_get_json {B} (url : json) (k : json -> M B) (s : state) :
  bind (requests_get_json http url) k s
  = match http (requests_log s) url with
    | Ok d => k d (logged s url)
    | Err e => (Err e, logged s url)
    end.
Proof.
  unfold bind, requests_get_json, logged.
  destruct (http (requests_log s) url); reflexivity.
Qed.

Lemma parse_move_ok (s : state) (e nm url detail : json) (text : string)
    (acc dt : json) :
  move_entry e nm url ->
  http (requests_log s) url = Ok detail ->
  move_detail detail text acc dt ->
  parse_move http e s
  = (Ok {| name := nm;
           description :=
             JStr (str_capitalize
                     (PyStr.replace PyStr.newline PyStr.space text));
           accuracy := acc;
           dmg_type := dt |},
     logged s url).
Proof.
  intros (m & Hm & Hnm & Hurl) Hget (f0 & rest & dc & Hfl & Hft & Ha & Hdc & Hdt).
  unfold parse_move. step Hm. step Hurl.
  rewrite bind_requests_get_json, Hget; cbv beta iota.
  next. step Hnm. step Hfl. cbn [getitem0]. next.
  step Hft. cbn [str_method]. next. cbn [str_method]. next.
  step Ha. step Hdc. step Hdt. reflexivity.
Qed.

Lemma parse_move_no_flavor_text (s : state) (e nm url detail : json) :
  move_entry e nm url ->
  http (requests_log s) url = Ok detail ->
  getitem detail "flavor_text_entries" = Ok (JArr []) ->
  parse_move http e s = (Err IndexError, logged s url).
Proof.
  intros (m & Hm & Hnm & Hurl) Hget Hfl.
  unfold parse_move. step Hm. step Hurl.
  rewrite bind_requests_get_json, Hget; cbv beta iota.
  next. step Hnm. step Hfl. reflexivity.
Qed.

Lemma parse_move_no_accuracy (s : state) (e nm url detail : json)
    (text : string) (f0 : json) (rest : list json) :
  move_entry e nm url ->
  http (requests_log s) url = Ok detail ->
  getitem detail "flavor_text_entries" = Ok (JArr (f0 :: rest)) ->
  getitem f0 "flavor_text" = Ok (JStr text) ->
  getitem detail "accuracy" = Err KeyError ->
  parse_move http e s = (Err KeyError, logged s url).
Proof.
  intros (m & Hm & Hnm & Hurl) Hget Hfl Hft Ha.
  unfold parse_move. step Hm. step Hurl.
  rewrite bind_requests_get_json, Hget; cbv beta iota.
  next. step Hnm. step Hfl. cbn [getitem0]. next.
  step Hft. cbn [str_method]. next. cbn [str_method]. next.
  step Ha. reflexivity.
Qed.

Lemma moves_loop_app (l1 l2 : list json) :
  forall (moves : list Move) (s : state),
    moves_loop http (l1 ++ l2) moves s
    = match moves_loop http l1 moves s with
      | (Ok moves', s') => moves_loop http l2 moves' s'
      | (Err e, s') => (Err e, s')
      end.
Proof.
  induction l1 as [|x l1 IH]; intros moves s; [reflexivity|].
  cbn [app moves_loop]. unfold bind.
  destruct (parse_move http x s) as [[r|e] s']; [apply IH | reflexivity].
Qed.

(** The records already collected do not influence the rest of the loop. *)
Lemma moves_loop_from_nil (l : list json) :
  forall (moves : list Move) (s : state),
    moves_loop http l moves s
    = match moves_loop http l [] s with
      | (Ok rest, s') => (Ok (moves ++ rest), s')
      | (Err e, s') => (Err e, s')
      end.
Proof.
  induction l as [|x l IH]; intros moves s.
  - cbn. now rewrite app_nil_r.
  - cbn [moves_loop]. unfold bind.
    destruct (parse_move http x s) as [[r|e] s']; [|reflexivity].
    rewrite (IH (moves ++ [r])), (IH ([] ++ [r])).
    destruct (moves_loop http l [] s') as [[rest|e] s'']; [|reflexivity].
    now rewrite <- app_assoc.
Qed.

(** [parse_pokemon_moves] on a move list split around one entry. *)
Lemma parse_pokemon_moves_split (s s1 : state) (pre post : list json)
    (e : json) (done : list Move) :
  getitem (pokemon_data (self s)) "moves" = Ok (JArr (pre ++ e :: post)) ->
  moves_loop http pre [] s = (Ok done, s1) ->
  parse_pokemon_moves http s
  = match parse_move http e s1 with
    | (Ok r, s2) =>
        match moves_loop http post [] s2 with
        | (Ok rest, s3) => (Ok (done ++ r :: rest), s3)
        | (Err x, s3) => (Err x, s3)
        end
    | (Err x, s2) => (Err x, s2)
    end.
Proof.
  intros Hdoc Hpre. unfold parse_pokemon_moves.
  rewrite bind_self_pokemon_data. step Hdoc. cbn [iter].
  rewrite bind_lift_ok, moves_loop_app, Hpre.
  cbn [moves_loop]. unfold bind.
  destruct (parse_move http e s1) as [[r|x] s2]; [|reflexivity].
  rewrite moves_loop_from_nil.
  destruct (moves_loop http post [] s2) as [[rest|x] s3]; [|reflexivity].
  now rewrite <- app_assoc.
Qed.



(** C6, as amended. For a move entry whose fetched detail document has an
    [accuracy] key, the record [parse_pokemon_moves] produces for it carries
    the value under that key as it is, [None] for a JSON null included. *)
Theorem moves_accuracy_verbatim (s s1 s3 : state)
    (pre post : list json) (e nm url detail : json) (text : string)
    (acc dt : json) (done rest : list Move) :
  getitem (pokemon_data (self s)) "moves" = Ok (JArr (pre ++ e :: post)) ->
  moves_loop http pre [] s = (Ok done, s1) ->
  move_entry e nm url ->
  http (requests_log s1) url = Ok detail ->
  move_detail detail text acc dt ->
  moves_loop http post [] (logged s1 url) = (Ok rest, s3) ->
  exists r : Move,
    parse_pokemon_moves http s = (Ok (done ++ r :: rest), s3) /\
    accuracy r = acc /\
    getitem detail "accuracy" = Ok (accuracy r).
Proof.
  intros Hdoc Hpre He Hget Hdet Hpost. eexists. split; [|split].
  - rewrite (parse_pokemon_moves_split s s1 pre post e done Hdoc Hpre).
    rewrite (parse_move_ok s1 e nm url detail text acc dt He Hget Hdet).
    rewrite Hpost. reflexivity.
  - reflexivity.
  - cbn [accuracy]. destruct Hdet as (? & ? & ? & _ & _ & Ha & _). exact Ha.
Qed.

(** C8. For a move entry whose fetched detail document has an empty
    [flavor_text_entries] list, [parse_pokemon_moves] raises [IndexError]
    when it reaches the entry: no list of moves is returned, whatever the
    entries after it are. *)
Theorem moves_empty_flavor_text_raises (s s1 : state)
    (pre post : list json) (e nm url detail : json) (done : list Move) :
  getitem (pokemon_data (self s)) "moves" = Ok (JArr (pre ++ e :: post)) ->
  moves_loop http pre [] s = (Ok done, s1) ->
  move_entry e nm url ->
  http (requests_log s1) url = Ok detail ->
  getitem detail "flavor_text_entries" = Ok (JArr []) ->
  parse_pokemon_moves http s = (Err IndexError, logged s1 url).
Proof.
  intros Hdoc Hpre He Hget Hfl.
  rewrite (parse_pokemon_moves_split s s1 pre post e done Hdoc Hpre).
  now rewrite (parse_move_no_flavor_text s1 e nm url detail He Hget Hfl).
Qed.

End Moves.

(** *** The primary fetch *)

Section Fetch.

Variable http : list json -> json -> result json.

Lemma PokemonDataFetcher_init_log (pk : string) (log : list json) :
  snd (PokemonDataFetcher_init http pk log) = log ++ [JStr (request_path pk)].
Proof. reflexivity. Qed.

Lemma Pokemon_init_log (pk : string) (log : list json) :
  snd (Pokemon_init http pk log) = log ++ [JStr (request_path pk)].
Proof.
  unfold Pokemon_init, PokemonDataFetcher_init.
  destruct (http log (JStr (request_path pk))); reflexivity.
Qed.

(** C7, as amended. Two ASCII names that differ only in letter case give
    the same request path, the base URL followed by the name with its
    capital letters made small, and constructing [Pokemon] with either
    issues the one primary fetch to that path. *)
Theorem fetch_path_ignores_case (a b : string) (log : list json) :
  ascii_spec U ->
  AsciiCase.ascii_only a = true ->
  AsciiCase.ascii_only b = true ->
  differ_only_in_case a b ->
  request_path a = request_path b /\
  (exists l : string,
      request_path a = (base_url ++ l)%string /\
      String.length l = String.length a /\
      forall j c, String.get j a = Some c ->
        exists x, String.get j l = Some x /\
          N_of_ascii x = AsciiCase.lower_code (N_of_ascii c)) /\
  snd (Pokemon_init http a log) = log ++ [JStr (request_path a)] /\
  snd (Pokemon_init http a log) = snd (Pokemon_init http b log).
Proof.
  intros HU Ha Hb H.
  assert (P : request_path a = request_path b).
  { unfold request_path.
    now rewrite (lower_differ_only_in_case a b HU Ha Hb H). }
  split; [exact P|]. split; [|split].
  - exists (str_lower a). split; [reflexivity|].
    destruct (HU a Ha) as (-> & _). split; [apply lower_length|].
    intros j c Hc. exists (AsciiCase.to_lower c).
    split; [now apply lower_get | apply N_of_to_lower].
  - apply Pokemon_init_log.
  - now rewrite !Pokemon_init_log, P.
Qed.

End Fetch.

(** *** The stored document *)

Lemma keeps_ret {A} (a : A) : keeps_self (ret a).
Proof. intros s. reflexivity. Qed.

Lemma keeps_lift {A} (r : result A) : keeps_self (lift r).
Proof. intros s. reflexivity. Qed.

Lemma keeps_self_pokemon_data : keeps_self self_pokemon_data.
Proof. intros s. reflexivity. Qed.

Lemma keeps_requests_get_json http (url : json) :
  keeps_self (requests_get_json http url).
Proof. intros s. reflexivity. Qed.

Lemma keeps_bind {A B} (m : M A) (k : A -> M B) :
  keeps_self m -> (forall a, keeps_self (k a)) -> keeps_self (bind m k).
Proof.
  intros Hm Hk s. unfold bind. specialize (Hm s).
  destruct (m s) as [[a|e] s']; cbn [snd] in *.
  - now rewrite (Hk a s').
  - exact Hm.
Qed.

Create HintDb keeps.
#[local] Hint Resolve keeps_ret keeps_lift keeps_self_pokemon_data
  keeps_requests_get_json : keeps.

Ltac keeps := repeat (apply keeps_bind; [|intros]); auto with keeps.

Lemma keeps_parse_move http (move : json) : keeps_self (parse_move http move).
Proof. unfold parse_move. keeps. Qed.

Lemma keeps_moves_loop http (items : list json) :
  forall moves, keeps_self (moves_loop http items moves).
Proof.
  induction items as [|x items IH]; intros moves; cbn [moves_loop].
  - apply keeps_ret.
  - apply keeps_bind; [apply keeps_parse_move | intros; apply IH].
Qed.

Lemma keeps_names_loop (key : string) (items : list json) :
  forall acc, keeps_self (names_loop key items acc).
Proof.
  induction items as [|x items IH]; intros acc; cbn [names_loop].
  - apply keeps_ret.
  - apply keeps_bind; [unfold titled_name; keeps | intros; apply IH].
Qed.

Lemma keeps_stats_loop (items : list json) :
  forall stats, keeps_self (stats_loop items stats).
Proof.
  induction items as [|x items IH]; intros stats; cbn [stats_loop].
  - apply keeps_ret.
  - keeps.
Qed.

Lemma keeps_game_version_loop (items : list json) :
  keeps_self (game_version_loop items).
Proof.
  induction items as [|x items IH]; cbn [game_version_loop].
  - apply keeps_ret.
  - apply keeps_bind; [keeps | intros v].
    apply keeps_bind; [keeps | intros n].
    destruct (in_strs n ["diamond"; "black"]); [keeps | exact IH].
Qed.

#[local] Hint Resolve keeps_moves_loop keeps_names_loop keeps_stats_loop
  keeps_game_version_loop : keeps.

Lemma delegate_keeps {A} (m : M A) (p : Pokemon) (log : list json) :
  keeps_self m -> fst (snd (delegate m p log)) = p.
Proof.
  intros H. unfold delegate.
  specialize (H {| self := parser p; requests_log := log |}).
  destruct (m {| self := parser p; requests_log := log |}) as [r s'].
  cbn [fst snd self] in *. rewrite H. now destruct p.
Qed.

(** C9. No extractor operation changes the stored document: after
    [parse_pokemon_types], [parse_pokemon_stats], [parse_pokemon_abilities],
    [parse_pokemon_game_version] or [parse_pokemon_moves], returned or
    raised, the parser holds the document it held before, and so does the
    [Pokemon] object after each of its accessors. *)
Theorem accessors_keep_document (http : list json -> json -> result json)
    (s : state) (p : Pokemon) (log : list json) :
  (pokemon_data (self (snd (parse_pokemon_types s))) = pokemon_data (self s) /\
   pokemon_data (self (snd (parse_pokemon_stats s))) = pokemon_data (self s) /\
   pokemon_data (self (snd (parse_pokemon_abilities s)))
   = pokemon_data (self s) /\
   pokemon_data (self (snd (parse_pokemon_game_version s)))
   = pokemon_data (self s) /\
   pokemon_data (self (snd (parse_pokemon_moves http s)))
   = pokemon_data (self s)) /\
  (fst (snd (get_types p log)) = p /\
   fst (snd (get_stats p log)) = p /\
   fst (snd (get_abilities p log)) = p /\
   fst (snd (get_game_version p log)) = p /\
   fst (snd (get_moves http p log)) = p).
Proof.
  assert (T : keeps_self parse_pokemon_types)
    by (unfold parse_pokemon_types; keeps).
  assert (S : keeps_self parse_pokemon_stats)
    by (unfold parse_pokemon_stats; keeps).
  assert (A : keeps_self parse_pokemon_abilities)
    by (unfold parse_pokemon_abilities; keeps).
  assert (G : keeps_self parse_pokemon_game_version)
    by (unfold parse_pokemon_game_version; keeps).
  assert (V : keeps_self (parse_pokemon_moves http))
    by (unfold parse_pokemon_moves; keeps).
  split.
  - now rewrite (T s), (S s), (A s), (G s), (V s).
  - unfold get_types, get_stats, get_abilities, get_game_version, get_moves.
    repeat split; apply delegate_keeps; assumption.
Qed.

(* ================================================================== *)
(** ** The rest of the parser *)

(** *** [parse_pokemon_abilities] *)

(** X1. On a document whose [abilities] is a list of entries of shape
    [{ability: {name}}], [parse_pokemon_abilities] returns, without any
    request, the list, of the same length and in source order, of what
    [str.title] makes of each name; of an ASCII name it makes the name with
    each character that does not follow a letter upper-cased and each
    character that follows a letter lower-cased. *)
Theorem abilities_title_cased (s : state) (es : list json)
    (names : list string) :
  getitem (pokemon_data (self s)) "abilities" = Ok (JArr es) ->
  Forall2 ability_entry es names ->
  parse_pokemon_abilities s
  = (Ok (map (fun n => JStr (str_title n)) names), s) /\
  List.length (map (fun n => JStr (str_title n)) names) = List.length names /\
  (ascii_spec U ->
   forall n, In n names -> AsciiCase.ascii_only n = true ->
     String.length (str_title n) = String.length n /\
     forall j c, String.get j n = Some c ->
       exists x, String.get j (str_title n) = Some x /\
         N_of_ascii x
         = if AsciiCase.follows_letter n j
           then AsciiCase.lower_code (N_of_ascii c)
           else AsciiCase.upper_code (N_of_ascii c)).
Proof.
  intros Hdoc F. split; [|split].
  - unfold parse_pokemon_abilities. rewrite bind_self_pokemon_data.
    step Hdoc. cbn [iter]. next.
    now rewrite (names_loop_run "ability" es names [] s F).
  - apply length_map.
  - intros HU n _ Hn. now apply title_ascii.
Qed.

(** *** The methods that never fetch *)

Lemma stateless_ret {A} (a : A) : stateless (ret a).
Proof. intros s. reflexivity. Qed.

Lemma stateless_lift {A} (r : result A) : stateless (lift r).
Proof. intros s. reflexivity. Qed.

Lemma stateless_self_pokemon_data : stateless self_pokemon_data.
Proof. intros s. reflexivity. Qed.

Lemma stateless_bind {A B} (m : M A) (k : A -> M B) :
  stateless m -> (forall a, stateless (k a)) -> stateless (bind m k).
Proof.
  intros Hm Hk s. unfold bind. specialize (Hm s).
  destruct (m s) as [[a|e] s']; cbn [snd] in *; subst s'.
  - apply Hk.
  - reflexivity.
Qed.

Create HintDb stateless.
#[local] Hint Resolve stateless_ret stateless_lift
  stateless_self_pokemon_data : stateless.

Ltac stateless :=
  repeat (apply stateless_bind; [|intros]); auto with stateless.

Lemma stateless_names_loop (key : string) (items : list json) :
  forall acc, stateless (names_loop key items acc).
Proof.
  induction items as [|x items IH]; intros acc; cbn [names_loop].
  - apply stateless_ret.
  - apply stateless_bind; [unfold titled_name; stateless | intros; apply IH].
Qed.

Lemma stateless_stats_loop (items : list json) :
  forall stats, stateless (stats_loop items stats).
Proof.
  induction items as [|x items IH]; intros stats; cbn [stats_loop].
  - apply stateless_ret.
  - stateless.
Qed.

Lemma stateless_game_version_loop (items : list json) :
  stateless (game_version_loop items).
Proof.
  induction items as [|x items IH]; cbn [game_version_loop].
  - apply stateless_ret.
  - apply stateless_bind; [stateless | intros v].
    apply stateless_bind; [stateless | intros n].
    destruct (in_strs n ["diamond"; "black"]); [stateless | exact IH].
Qed.

#[local] Hint Resolve stateless_names_loop stateless_stats_loop
  stateless_game_version_loop : stateless.

Lemma stateless_parse_pokemon_types : stateless parse_pokemon_types.
Proof. unfold parse_pokemon_types. stateless. Qed.

Lemma stateless_parse_pokemon_stats : stateless parse_pokemon_stats.
Proof. unfold parse_pokemon_stats. stateless. Qed.

Lemma stateless_parse_pokemon_abilities : stateless parse_pokemon_abilities.
Proof. unfold parse_pokemon_abilities. stateless. Qed.

Lemma stateless_parse_pokemon_game_version :
  stateless parse_pokemon_game_version.
Proof. unfold parse_pokemon_game_version. stateless. Qed.

Lemma delegate_stateless {A} (m : M A) (p : Pokemon) (log : list json) :
  stateless m -> snd (delegate m p log) = (p, log).
Proof.
  intros H. unfold delegate.
  specialize (H {| self := parser p; requests_log := log |}).
  destruct (m {| self := parser p; requests_log := log |}) as [r s'].
  cbn [snd] in *. subst s'. cbn [self requests_log]. now destruct p.
Qed.

(** X2. [parse_pokemon_types], [parse_pokemon_stats],
    [parse_pokemon_abilities] and [parse_pokemon_game_version] call
    [requests.get] on no document and in no outcome: returned or raised,
    the request log and the parser are as before, and so are the [Pokemon]
    object and the log after the four accessors that delegate to them. *)
Theorem views_never_fetch (s : state) (p : Pokemon) (log : list json) :
  (snd (parse_pokemon_types s) = s /\
   snd (parse_pokemon_stats s) = s /\
   snd (parse_pokemon_abilities s) = s /\
   snd (parse_pokemon_game_version s) = s) /\
  (snd (get_types p log) = (p, log) /\
   snd (get_stats p log) = (p, log) /\
   snd (get_abilities p log) = (p, log) /\
   snd (get_game_version p log) = (p, log)).
Proof.
  split.
  - repeat split;
      [ apply stateless_parse_pokemon_types
      | apply stateless_parse_pokemon_stats
      | apply stateless_parse_pokemon_abilities
      | apply stateless_parse_pokemon_game_version ].
  - unfold get_types, get_stats, get_abilities, get_game_version.
    repeat split; apply delegate_stateless;
      auto using stateless_parse_pokemon_types,
        stateless_parse_pokemon_stats, stateless_parse_pokemon_abilities,
        stateless_parse_pokemon_game_version.
Qed.

(** *** Documents of an unexpected shape *)

Section TopLevel.

Variable http : list json -> json -> result json.

(** X3. When the subscript of the stored document by the method's key
    raises ([KeyError] on a dict without the key, [TypeError] on a document
    that is no dict), the method raises the same exception at once: nothing
    is fetched and no empty result stands in for the missing list. *)
Theorem missing_list_raises (s : state) (x : exn) :
  (getitem (pokemon_data (self s)) "moves" = Err x ->
   parse_pokemon_moves http s = (Err x, s)) /\
  (getitem (pokemon_data (self s)) "types" = Err x ->
   parse_pokemon_types s = (Err x, s)) /\
  (getitem (pokemon_data (self s)) "stats" = Err x ->
   parse_pokemon_stats s = (Err x, s)) /\
  (getitem (pokemon_data (self s)) "abilities" = Err x ->
   parse_pokemon_abilities s = (Err x, s)) /\
  (getitem (pokemon_data (self s)) "game_indices" = Err x ->
   parse_pokemon_game_version s = (Err x, s)).
Proof.
  repeat split; intros H;
    [ unfold parse_pokemon_moves | unfold parse_pokemon_types
    | unfold parse_pokemon_stats | unfold parse_pokemon_abilities
    | unfold parse_pokemon_game_version ];
    rewrite bind_self_pokemon_data, H; reflexivity.
Qed.

End TopLevel.

(** *** [parse_pokemon_game_version] on arbitrary entries *)

Lemma game_version_loop_stops (pre_es : list json) :
  forall (pre : list (string * json)) (e : json) (p : string * json)
         (tail : list json) (s : state),
    Forall2 game_index_entry pre_es pre ->
    (forall q, In q pre -> ~ wanted (fst q)) ->
    game_index_entry e p ->
    wanted (fst p) ->
    game_version_loop (pre_es ++ e :: tail) s = (Ok (snd p), s).
Proof.
  induction pre_es as [|x pre_es IH]; intros pre e p tail s F Hpre He Hp;
    inversion F as [|? q ? pre' Hx Hrest]; subst; cbn [app game_version_loop].
  - destruct He as (v & Hv & Hn & Hg). step Hv. step Hn.
    rewrite (proj2 (in_strs_wanted _) Hp). now rewrite Hg.
  - destruct Hx as (v & Hv & Hn & Hg). step Hv. step Hn.
    rewrite in_strs_not_wanted by (apply Hpre; left; reflexivity).
    apply (IH pre'); auto. intros r Hr. apply Hpre. right. exact Hr.
Qed.

(** X4. [parse_pokemon_game_version] stops at the first entry named
    "diamond" or "black": whatever follows it in [game_indices], entries
    without a version or values that are no dicts included, is never
    subscripted and cannot make the method raise. *)
Theorem game_version_ignores_tail (s : state) (pre_es tail : list json)
    (pre : list (string * json)) (e : json) (n : string) (g : json) :
  getitem (pokemon_data (self s)) "game_indices"
  = Ok (JArr (pre_es ++ e :: tail)) ->
  Forall2 game_index_entry pre_es pre ->
  (forall q, In q pre -> ~ wanted (fst q)) ->
  game_index_entry e (n, g) ->
  wanted n ->
  parse_pokemon_game_version s = (Ok g, s).
Proof.
  intros Hdoc F Hpre He Hn. unfold parse_pokemon_game_version.
  rewrite bind_self_pokemon_data. step Hdoc. cbn [iter]. next.
  exact (game_version_loop_stops pre_es pre e (n, g) tail s F Hpre He Hn).
Qed.

Lemma in_strs_true (v : json) (l : list string) :
  in_strs v l = true -> exists n, v = JStr n /\ In n l.
Proof.
  destruct v; cbn [in_strs]; try discriminate.
  intros H. apply existsb_exists in H. destruct H as (x & Hx & E).
  apply String.eqb_eq in E. subst x. eauto.
Qed.

Lemma game_version_loop_sound (es : list json) :
  forall (s s' : state) (g : json),
    game_version_loop es s = (Ok g, s') ->
    (exists e v n,
        In e es /\ getitem e "version" = Ok v /\
        getitem v "name" = Ok (JStr n) /\ wanted n /\
        getitem e "game_index" = Ok g) \/
    (g = JNull /\
     Forall (fun e => exists v nm,
                 getitem e "version" = Ok v /\ getitem v "name" = Ok nm /\
                 in_strs nm ["diamond"; "black"] = false) es).
Proof.
  induction es as [|e es IH]; intros s s' g H; cbn [game_version_loop] in H.
  - right. split; [now injection H | constructor].
  - destruct (getitem e "version") as [v|x] eqn:Hv;
      [|rewrite bind_lift_err in H; discriminate].
    rewrite bind_lift_ok in H; cbv beta in H.
    destruct (getitem v "name") as [nm|x] eqn:Hn;
      [|rewrite bind_lift_err in H; discriminate].
    rewrite bind_lift_ok in H; cbv beta in H.
    destruct (in_strs nm ["diamond"; "black"]) eqn:Hin.
    + left. destruct (in_strs_true _ _ Hin) as (n & -> & _).
      apply in_strs_wanted in Hin.
      destruct (getitem e "game_index") as [g'|x] eqn:Hg;
        [|discriminate].
      injection H as -> _.
      exists e, v, n. repeat split; trivial. left. reflexivity.
    + destruct (IH _ _ _ H) as [(e' & v' & n & Hi & R)|[-> F]].
      * left. exists e', v', n. split; [right; exact Hi | exact R].
      * right. split; trivial. constructor; trivial. now exists v, nm.
Qed.

(** X5. Whatever the entries of [game_indices] are, a value
    [parse_pokemon_game_version] returns is the [game_index] of an entry of
    the list named "diamond" or "black", or it is [None] and every entry
    has a version name that is neither: no other entry's index, and no
    default, is ever returned. *)
Theorem game_version_sound (s s' : state) (es : list json) (g : json) :
  getitem (pokemon_data (self s)) "game_indices" = Ok (JArr es) ->
  parse_pokemon_game_version s = (Ok g, s') ->
  (exists e v n,
      In e es /\ getitem e "version" = Ok v /\
      getitem v "name" = Ok (JStr n) /\ wanted n /\
      getitem e "game_index" = Ok g) \/
  (g = JNull /\
   Forall (fun e => exists v nm,
               getitem e "version" = Ok v /\ getitem v "name" = Ok nm /\
               in_strs nm ["diamond"; "black"] = false) es).
Proof.
  intros Hdoc H. unfold parse_pokemon_game_version in H.
  rewrite bind_self_pokemon_data in H. rewrite Hdoc in H.
  rewrite bind_lift_ok in H. cbn [iter] in H. rewrite bind_lift_ok in H.
  exact (game_version_loop_sound es s s' g H).
Qed.

(** *** The dict returned by [parse_pokemon_stats] *)

Lemma key_eqb_refl (k : json) : hashable k = true -> key_eqb k k = true.
Proof.
  destruct k; cbn; try discriminate; intros _;
    [reflexivity | apply Bool.eqb_reflx | apply Z.eqb_refl
    | apply String.eqb_refl].
Qed.

Lemma dict_store_keys_in (d : dict) (k v x : json) :
  In x (dict_keys (dict_store d k v)) -> In x (dict_keys d) \/ x = k.
Proof.
  induction d as [|[k' v'] d IH]; cbn [dict_store].
  - cbn. intros [<-|[]]. now right.
  - destruct (key_eqb k' k); cbn [dict_keys map fst In].
    + tauto.
    + intros [H|H]; [tauto|]. destruct (IH H); tauto.
Qed.

Lemma dict_store_distinct (d : dict) (k v : json) :
  distinct_keys (dict_keys d) -> distinct_keys (dict_keys (dict_store d k v)).
Proof.
  induction d as [|[k' v'] d IH]; cbn [dict_store].
  - cbn. intros _. split; [constructor | exact I].
  - destruct (key_eqb k' k) eqn:E; cbn [dict_keys map fst distinct_keys].
    + tauto.
    + intros [F D]. split; [|now apply IH].
      apply Forall_forall. intros x Hx.
      destruct (dict_store_keys_in d k v x Hx) as [Hin| ->]; trivial.
      rewrite Forall_forall in F. now apply F.
Qed.

Lemma dict_store_hashable (d : dict) (k v : json) :
  hashable k = true ->
  Forall (fun x => hashable x = true) (dict_keys d) ->
  Forall (fun x => hashable x = true) (dict_keys (dict_store d k v)).
Proof.
  intros Hk F. apply Forall_forall. intros x Hx.
  destruct (dict_store_keys_in d k v x Hx) as [Hin| ->]; trivial.
  rewrite Forall_forall in F. now apply F.
Qed.

Lemma stats_loop_keys (es : list json) :
  forall (d d' : dict) (s s' : state),
    distinct_keys (dict_keys d) ->
    Forall (fun x => hashable x = true) (dict_keys d) ->
    stats_loop es d s = (Ok d', s') ->
    distinct_keys (dict_keys d') /\
    Forall (fun x => hashable x = true) (dict_keys d').
Proof.
  induction es as [|e es IH]; intros d d' s s' D F H; cbn [stats_loop] in H.
  - injection H as <- _. now split.
  - destruct (getitem e "base_stat") as [b|x];
      [|rewrite bind_lift_err in H; discriminate].
    rewrite bind_lift_ok in H; cbv beta in H.
    destruct (getitem e "stat") as [st|x];
      [|rewrite bind_lift_err in H; discriminate].
    rewrite bind_lift_ok in H; cbv beta in H.
    destruct (getitem st "name") as [n|x];
      [|rewrite bind_lift_err in H; discriminate].
    rewrite bind_lift_ok in H; cbv beta in H.
    unfold setitem in H. destruct (hashable n) eqn:Hn;
      [|rewrite bind_lift_err in H; discriminate].
    rewrite bind_lift_ok in H; cbv beta in H.
    apply (IH _ _ _ _ (dict_store_distinct d n b D)
              (dict_store_hashable d n b Hn F) H).
Qed.

Lemma dict_get_item (d : dict) :
  distinct_keys (dict_keys d) ->
  Forall (fun x => hashable x = true) (dict_keys d) ->
  forall k v, In (k, v) d -> dict_get d k = Some v.
Proof.
  induction d as [|[k' v'] d IH]; intros D F k v Hin; [destruct Hin|].
  cbn [dict_keys map fst distinct_keys] in D. destruct D as [Fk D].
  inversion F as [|? ? Hk' F']; subst. cbn [dict_get].
  destruct Hin as [E|Hin].
  - injection E as -> ->. now rewrite key_eqb_refl.
  - assert (N : key_eqb k' k = false).
    { rewrite Forall_forall in Fk. apply Fk.
      change k with (fst (k, v)). now apply in_map. }
    rewrite N. now apply IH.
Qed.

(** X6. Whatever the entries of [stats] are, a dict that
    [parse_pokemon_stats] returns is a proper dict: its keys are hashable,
    no two of them are equal, and looking up the key of any of its items
    gives the value of that item. *)
Theorem stats_dict_proper (s s' : state) (d : dict) :
  parse_pokemon_stats s = (Ok d, s') ->
  distinct_keys (dict_keys d) /\
  Forall (fun x => hashable x = true) (dict_keys d) /\
  (forall k v, In (k, v) d -> dict_get d k = Some v).
Proof.
  intros H. unfold parse_pokemon_stats in H.
  rewrite bind_self_pokemon_data in H.
  destruct (getitem (pokemon_data (self s)) "stats") as [ss|x];
    [|rewrite bind_lift_err in H; discriminate].
  rewrite bind_lift_ok in H; cbv beta in H.
  destruct (iter ss) as [items|x];
    [|rewrite bind_lift_err in H; discriminate].
  rewrite bind_lift_ok in H; cbv beta in H.
  destruct (stats_loop_keys items [] d s s' I (Forall_nil _) H) as [D F].
  split; [exact D|]. split; [exact F|]. now apply dict_get_item.
Qed.

(** *** The requests of [parse_pokemon_moves] *)

Section Requests.

Variable http : list json -> json -> result json.

(** One pass of the loop body: it raises before any request, or it issues
    the one request for the entry's locator and then changes nothing
    more. *)
Lemma parse_move_cases (e : json) (s : state) :
  (exists x, parse_move http e s = (Err x, s)) \/
  (exists u, url_of e u /\
     snd (parse_move http e s) = logged s u /\
     (forall r, fst (parse_move http e s) = Ok r -> named_after e r)).
Proof.
  unfold parse_move.
  destruct (getitem e "move") as [m|x] eqn:Hm;
    [|left; exists x; reflexivity].
  rewrite bind_lift_ok; cbv beta.
  destruct (getitem m "url") as [u|x] eqn:Hu;
    [|left; exists x; reflexivity].
  rewrite bind_lift_ok; cbv beta. right. exists u.
  split; [now exists m|]. rewrite bind_requests_get_json.
  destruct (http (requests_log s) u) as [move_data|x];
    [|split; [reflexivity | discriminate]].
  rewrite bind_lift_ok; cbv beta.
  repeat match goal with
         | |- context [bind (lift ?r) _ _] =>
             destruct r eqn:?;
             [rewrite bind_lift_ok; cbv beta
             |rewrite bind_lift_err; split; [reflexivity | discriminate]]
         end.
  split; [reflexivity|].
  intros r H. injection H as <-. exists m. now split.
Qed.

Lemma moves_loop_requests (es : list json) :
  forall (moves : list Move) (s : state),
    exists urls,
      Forall2 url_of (firstn (List.length urls) es) urls /\
      requests_log (snd (moves_loop http es moves s))
      = requests_log s ++ urls /\
      (forall ms, fst (moves_loop http es moves s) = Ok ms ->
         List.length urls = List.length es /\
         exists added, ms = moves ++ added /\ Forall2 named_after es added).
Proof.
  induction es as [|e es IH]; intros moves s.
  - exists []. cbn. rewrite app_nil_r.
    split; [constructor|]. split; [reflexivity|].
    intros ms H. injection H as <-. split; trivial.
    exists []. rewrite app_nil_r. split; [trivial | constructor].
  - cbn [moves_loop]. unfold bind.
    destruct (parse_move_cases e s) as [(x & Hx)|(u & Hu & Hs & Hn)].
    + rewrite Hx. exists []. cbn. rewrite app_nil_r.
      split; [constructor|]. split; [reflexivity | discriminate].
    + destruct (parse_move http e s) as [[r|x] s1]; cbn [fst snd] in *;
        subst s1.
      * destruct (IH (moves ++ [r]) (logged s u)) as (urls & F & L & R).
        exists (u :: urls). cbn [List.length firstn]. split; [|split].
        -- constructor; assumption.
        -- rewrite L. cbn [logged requests_log]. now rewrite <- app_assoc.
        -- intros ms H. destruct (R ms H) as (Len & added & -> & N).
           split; [now rewrite Len|]. exists (r :: added).
           split; [now rewrite <- app_assoc|].
           constructor; [now apply Hn | exact N].
      * exists [u]. cbn [List.length firstn]. split; [|split].
        -- constructor; [assumption | constructor].
        -- reflexivity.
        -- discriminate.
Qed.

(** The whole outcome of the loop: on return, one request per entry in
    order; on raise, the entries before the raising one parsed and
    requested, and at most the request of the raising entry after them. *)
Lemma moves_loop_outcome (es : list json) :
  forall (moves : list Move) (s : state),
    match moves_loop http es moves s with
    | (Ok ms, s') =>
        exists urls added,
          Forall2 url_of es urls /\
          requests_log s' = requests_log s ++ urls /\
          ms = moves ++ added /\
          Forall2 named_after es added
    | (Err x, s') =>
        exists pre e post done s1 urls,
          es = pre ++ e :: post /\
          moves_loop http pre moves s = (Ok (moves ++ done), s1) /\
          Forall2 url_of pre urls /\
          requests_log s1 = requests_log s ++ urls /\
          parse_move http e s1 = (Err x, s') /\
          (s' = s1 \/ exists u, url_of e u /\ s' = logged s1 u)
    end.
Proof.
  induction es as [|e es IH]; intros moves s.
  - cbn. exists [], []. rewrite !app_nil_r.
    split; [constructor|]. split; [reflexivity|].
    split; [reflexivity | constructor].
  - cbn [moves_loop]. unfold bind.
    destruct (parse_move_cases e s) as [(x & Hx)|(u & Hu & Hs & Hn)].
    + rewrite Hx. exists [], e, es, [], s, []. cbn [app moves_loop ret].
      rewrite !app_nil_r. split; [reflexivity|]. split; [reflexivity|].
      split; [constructor|]. split; [reflexivity|]. split; [exact Hx|].
      left. reflexivity.
    + destruct (parse_move http e s) as [[r|x] s1'] eqn:E;
        cbn [fst snd] in *; subst s1'.
      * specialize (IH (moves ++ [r]) (logged s u)).
        destruct (moves_loop http es (moves ++ [r]) (logged s u))
          as [[ms|x] s'] eqn:R.
        -- destruct IH as (urls & added & F & Lg & -> & N).
           exists (u :: urls), (r :: added). split; [|split; [|split]].
           ++ constructor; assumption.
           ++ rewrite Lg. cbn [logged requests_log].
              now rewrite <- app_assoc.
           ++ now rewrite <- app_assoc.
           ++ constructor; [now apply Hn | exact N].
        -- destruct IH
             as (pre & e' & post & done & s1 & urls & -> & Hpre & F & Lg
                 & He' & Hd).
           exists (e :: pre), e', post, (r :: done), s1, (u :: urls).
           split; [reflexivity|]. split; [|split; [|split; [|split]]].
           ++ cbn [moves_loop]. unfold bind. rewrite E, Hpre.
              now rewrite <- app_assoc.
           ++ constructor; assumption.
           ++ rewrite Lg. cbn [logged requests_log].
              now rewrite <- app_assoc.
           ++ exact He'.
           ++ exact Hd.
      * exists [], e, es, [], s, []. cbn [app moves_loop ret].
        rewrite !app_nil_r. split; [reflexivity|]. split; [reflexivity|].
        split; [constructor|]. split; [reflexivity|].
        split; [exact E|]. right. exists u. now split.
Qed.

(** X7. Whatever the move entries and the transport's answers are:
    when [parse_pokemon_moves] returns, it has issued one request per
    entry, for the entry's own locator and in document order, and the
    records carry the entries' names in the same order; when it raises,
    the entries before the raising one were parsed and requested, one
    request each in order, the raising entry's locator was requested at
    most once after them, and nothing was requested for the entries after
    it. *)
Theorem moves_requests_in_order (s : state) (es : list json) :
  getitem (pokemon_data (self s)) "moves" = Ok (JArr es) ->
  match parse_pokemon_moves http s with
  | (Ok ms, s') =>
      exists urls,
        Forall2 url_of es urls /\
        requests_log s' = requests_log s ++ urls /\
        Forall2 named_after es ms
  | (Err x, s') =>
      exists pre e post done s1 urls,
        es = pre ++ e :: post /\
        moves_loop http pre [] s = (Ok done, s1) /\
        Forall2 url_of pre urls /\
        requests_log s1 = requests_log s ++ urls /\
        parse_move http e s1 = (Err x, s') /\
        (s' = s1 \/ exists u, url_of e u /\ s' = logged s1 u)
  end.
Proof.
  intros Hdoc. unfold parse_pokemon_moves.
  rewrite bind_self_pokemon_data. step Hdoc. cbn [iter]. next.
  pose proof (moves_loop_outcome es [] s) as O.
  destruct (moves_loop http es [] s) as [[ms|x] s'].
  - destruct O as (urls & added & F & Lg & -> & N). now exists urls.
  - exact O.
Qed.

(** X8. When the transport fails on the request for a move entry,
    [parse_pokemon_moves] raises the transport's exception: the records
    parsed so far are dropped and the entries after it are not requested. *)
Theorem moves_transport_failure (s s1 : state) (pre post : list json)
    (e nm url : json) (done : list Move) (x : exn) :
  getitem (pokemon_data (self s)) "moves" = Ok (JArr (pre ++ e :: post)) ->
  moves_loop http pre [] s = (Ok done, s1) ->
  move_entry e nm url ->
  http (requests_log s1) url = Err x ->
  parse_pokemon_moves http s = (Err x, logged s1 url).
Proof.
  intros Hdoc Hpre (m & Hm & Hnm & Hurl) Hget.
  rewrite (parse_pokemon_moves_split http s s1 pre post e done Hdoc Hpre).
  unfold parse_move. step Hm. step Hurl.
  now rewrite bind_requests_get_json, Hget.
Qed.

Lemma url_of_functional (es : list json) :
  forall us vs, Forall2 url_of es us -> Forall2 url_of es vs -> us = vs.
Proof.
  induction es as [|e es IH]; intros us vs Hu Hv;
    inversion Hu as [|? u ? us' (m & Hm & Hmu) Hus]; subst;
    inversion Hv as [|? v ? vs' (m' & Hm' & Hmv) Hvs]; subst; trivial.
  rewrite Hm in Hm'. injection Hm' as <-. rewrite Hmu in Hmv.
  injection Hmv as <-. f_equal. now apply IH.
Qed.

Lemma keeps_parse_pokemon_moves : keeps_self (parse_pokemon_moves http).
Proof. unfold parse_pokemon_moves. keeps. Qed.

(** X9. [parse_pokemon_moves] keeps no cache: a second successful call on
    the same object requests every move's locator again, so that after two
    calls the log holds the locators of the document's moves twice over. *)
Theorem moves_refetched (s s1 s2 : state) (es : list json)
    (ms ms' : list Move) :
  getitem (pokemon_data (self s)) "moves" = Ok (JArr es) ->
  parse_pokemon_moves http s = (Ok ms, s1) ->
  parse_pokemon_moves http s1 = (Ok ms', s2) ->
  exists urls,
    Forall2 url_of es urls /\
    requests_log s1 = requests_log s ++ urls /\
    requests_log s2 = requests_log s ++ urls ++ urls.
Proof.
  intros Hdoc H1 H2.
  assert (Hdoc1 : getitem (pokemon_data (self s1)) "moves" = Ok (JArr es)).
  { pose proof (keeps_parse_pokemon_moves s) as K. rewrite H1 in K.
    cbn [snd] in K. now rewrite K. }
  destruct (moves_loop_requests es [] s) as (us & Fu & Lu & Ru).
  destruct (moves_loop_requests es [] s1) as (vs & Fv & Lv & Rv).
  unfold parse_pokemon_moves in H1, H2.
  rewrite bind_self_pokemon_data in H1, H2.
  rewrite Hdoc in H1. rewrite Hdoc1 in H2.
  rewrite bind_lift_ok in H1, H2. cbn [iter] in H1, H2.
  rewrite bind_lift_ok in H1, H2.
  rewrite H1 in Lu, Ru. rewrite H2 in Lv, Rv. cbn [fst snd] in *.
  destruct (Ru ms eq_refl) as (Leu & _).
  destruct (Rv ms' eq_refl) as (Lev & _).
  rewrite Leu, firstn_all in Fu. rewrite Lev, firstn_all in Fv.
  rewrite (url_of_functional es vs us Fv Fu) in Lv.
  exists us. split; [exact Fu|]. split; [exact Lu|].
  now rewrite Lv, Lu, <- app_assoc.
Qed.

End Requests.

(** *** Construction and the accessors of [Pokemon] *)

Section Facade.

Variable http : list json -> json -> result json.

Lemma delegate_result {A} (m : M A) (p : Pokemon) (log : list json) :
  fst (delegate m p log) = fst (m {| self := parser p; requests_log := log |}).
Proof.
  unfold delegate.
  now destruct (m {| self := parser p; requests_log := log |}).
Qed.

Lemma delegate_log {A} (m : M A) (p : Pokemon) (log : list json) :
  snd (snd (delegate m p log))
  = requests_log (snd (m {| self := parser p; requests_log := log |})).
Proof.
  unfold delegate.
  now destruct (m {| self := parser p; requests_log := log |}).
Qed.

(** X10. [Pokemon(pk_name)] issues one request, for the base URL followed
    by [pk_name.lower()].
    When the transport answers, the object keeps the name as it was given,
    its parser and its fetcher hold the answered document, and every
    accessor returns what the parser method returns on that document; when
    the transport fails, the constructor raises its exception and no object
    is built. *)
Theorem Pokemon_serves_fetched_document (pk : string) (log : list json) :
  request_path pk = (base_url ++ str_lower pk)%string /\
  (forall doc,
     http log (JStr (request_path pk)) = Ok doc ->
     exists p,
       Pokemon_init http pk log = (Ok p, log ++ [JStr (request_path pk)]) /\
       pk_name p = pk /\
       consistent p /\
       pokemon_data (parser p) = doc /\
       forall l,
         let st := {| self := PokemonParser_init doc; requests_log := l |} in
         fst (get_moves http p l) = fst (parse_pokemon_moves http st) /\
         fst (get_types p l) = fst (parse_pokemon_types st) /\
         fst (get_stats p l) = fst (parse_pokemon_stats st) /\
         fst (get_abilities p l) = fst (parse_pokemon_abilities st) /\
         fst (get_game_version p l) = fst (parse_pokemon_game_version st)) /\
  (forall x,
     http log (JStr (request_path pk)) = Err x ->
     Pokemon_init http pk log = (Err x, log ++ [JStr (request_path pk)])).
Proof.
  split; [reflexivity|]. split.
  - intros doc H. unfold Pokemon_init, PokemonDataFetcher_init. rewrite H.
    eexists. split; [reflexivity|]. repeat split;
      unfold get_moves, get_types, get_stats, get_abilities,
        get_game_version; apply delegate_result.
  - intros x H. unfold Pokemon_init, PokemonDataFetcher_init. now rewrite H.
Qed.

(** X11. Two names with the same [str.lower] give, on the same
    transport, objects that differ in nothing but the stored name: the
    second construction succeeds when the first does, with the same parser
    and the same request log, and every accessor returns the same result on
    both. *)
Theorem Pokemon_views_ignore_case (a b : string) (log l : list json)
    (p : Pokemon) :
  str_lower a = str_lower b ->
  Pokemon_init http a log = (Ok p, l) ->
  exists q,
    Pokemon_init http b log = (Ok q, l) /\
    pk_name q = b /\
    parser q = parser p /\
    forall l',
      fst (get_moves http q l') = fst (get_moves http p l') /\
      snd (snd (get_moves http q l')) = snd (snd (get_moves http p l')) /\
      fst (get_types q l') = fst (get_types p l') /\
      fst (get_stats q l') = fst (get_stats p l') /\
      fst (get_abilities q l') = fst (get_abilities p l') /\
      fst (get_game_version q l') = fst (get_game_version p l').
Proof.
  intros Hab H.
  unfold Pokemon_init, PokemonDataFetcher_init, request_path in *.
  rewrite <- Hab.
  destruct (http log (JStr (base_url ++ str_lower a)%string)) as [doc|x];
    [|discriminate].
  injection H as <- <-. eexists. split; [reflexivity|].
  split; [reflexivity|]. split; [reflexivity|]. intros l'.
  unfold get_moves, get_types, get_stats, get_abilities, get_game_version.
  rewrite !delegate_result, !delegate_log. repeat split; reflexivity.
Qed.

End Facade.

(** *** Names that are no strings, descriptions on one line *)

Lemma str_method_not_str (m : string -> string) (v : json) :
  (forall n, v <> JStr n) -> str_method m v = Err AttributeError.
Proof. destruct v; intros H; trivial. now elim (H s). Qed.

Lemma names_loop_not_str (key : string) (pre_es : list json) :
  forall (names : list string) (e t v : json) (post acc : list json)
         (s : state),
    Forall2 (fun e n => exists t, getitem e key = Ok t /\
                                  getitem t "name" = Ok (JStr n))
      pre_es names ->
    getitem e key = Ok t ->
    getitem t "name" = Ok v ->
    (forall n, v <> JStr n) ->
    names_loop key (pre_es ++ e :: post) acc s = (Err AttributeError, s).
Proof.
  induction pre_es as [|x pre_es IH]; intros names e t v post acc s F Ht Hv Hn;
    inversion F as [|? n ? names' Hx Hrest]; subst; cbn [app names_loop].
  - unfold bind at 1. unfold titled_name. step Ht. step Hv.
    now rewrite (str_method_not_str _ v Hn).
  - unfold bind at 1. rewrite (titled_name_run key x n s Hx).
    now apply (IH names' e t v).
Qed.

(** X12. When the name of a type entry, or of an ability entry, is not a
    string (a JSON null, say), the method raises [AttributeError] at that
    entry: the entry is not skipped and the names before it are dropped. *)
Theorem name_not_string_raises (s : state) (pre_es post : list json)
    (names : list string) (e t v : json) :
  (forall n, v <> JStr n) ->
  getitem t "name" = Ok v ->
  (getitem (pokemon_data (self s)) "types"
   = Ok (JArr (pre_es ++ e :: post)) ->
   Forall2 type_entry pre_es names ->
   getitem e "type" = Ok t ->
   parse_pokemon_types s = (Err AttributeError, s)) /\
  (getitem (pokemon_data (self s)) "abilities"
   = Ok (JArr (pre_es ++ e :: post)) ->
   Forall2 ability_entry pre_es names ->
   getitem e "ability" = Ok t ->
   parse_pokemon_abilities s = (Err AttributeError, s)).
Proof.
  intros Hn Hv. split; intros Hdoc F Ht;
    [unfold parse_pokemon_types | unfold parse_pokemon_abilities];
    rewrite bind_self_pokemon_data; step Hdoc; cbn [iter]; next;
    now apply (names_loop_not_str _ pre_es names e t v).
Qed.

Lemma to_upper_newline (c : ascii) :
  AsciiCase.to_upper c = PyStr.newline -> c = PyStr.newline.
Proof.
  destruct c as [[] [] [] [] [] [] [] []]; cbv; intros H;
    first [reflexivity | discriminate H].
Qed.

Lemma to_lower_newline (c : ascii) :
  AsciiCase.to_lower c = PyStr.newline -> c = PyStr.newline.
Proof.
  destruct c as [[] [] [] [] [] [] [] []]; cbv; intros H;
    first [reflexivity | discriminate H].
Qed.

Lemma get_some_lt (s : string) :
  forall j c, String.get j s = Some c -> j < String.length s.
Proof.
  induction s as [|a r IH]; intros j c H; [discriminate|].
  destruct j; cbn [String.get String.length] in *; [lia|].
  apply IH in H. lia.
Qed.

Lemma get_lt_some (s : string) :
  forall j, j < String.length s -> exists c, String.get j s = Some c.
Proof.
  induction s as [|a r IH]; intros j H; cbn [String.length] in H; [lia|].
  destruct j; cbn [String.get]; [now exists a|]. apply IH. lia.
Qed.

Section Description.

Variable http : list json -> json -> result json.

(** X13. The description of a record built by the loop body of
    [parse_pokemon_moves] from an ASCII flavor text is on one line:
    no character of the description is a newline. *)
Theorem move_description_one_line (s : state) (e nm url detail : json)
    (text : string) (acc dt : json) :
  ascii_spec U ->
  AsciiCase.ascii_only text = true ->
  move_entry e nm url ->
  http (requests_log s) url = Ok detail ->
  move_detail detail text acc dt ->
  exists (r : Move) (d : string),
    parse_move http e s = (Ok r, logged s url) /\
    description r = JStr d /\
    forall j, String.get j d <> Some PyStr.newline.
Proof.
  intros HU Ht He Hget Hdet.
  rewrite (parse_move_ok http s e nm url detail text acc dt He Hget Hdet).
  eexists. eexists. split; [reflexivity|]. split; [reflexivity|].
  destruct (HU _ (replace_ascii_only text Ht)) as (_ & _ & -> & _).
  intros j H.
  assert (L : j < String.length text).
  { apply get_some_lt in H.
    now rewrite capitalize_length, replace_length in H. }
  destruct (get_lt_some text j L) as (c & Hc).
  rewrite (capitalize_get _ j _
             (replace_get PyStr.newline PyStr.space text j c Hc)) in H.
  injection H as H.
  assert (N : (if Ascii.eqb c PyStr.newline then PyStr.space else c)
              = PyStr.newline).
  { destruct j; [now apply to_upper_newline | now apply to_lower_newline]. }
  destruct (Ascii.eqb c PyStr.newline) eqn:E.
  - discriminate N.
  - rewrite N in E. discriminate E.
Qed.

End Description.

End Facts.

(* ================================================================== *)
(** ** The claims on the sample documents *)

(** The samples are run with [sample_methods]. *)
#[global] Existing Instance sample_methods.

Lemma sample_methods_ascii : ascii_spec sample_methods.
Proof.
  intros s Hs. cbn [str_lower str_upper str_capitalize str_title
                    sample_methods].
  split; [reflexivity|]. split; [|split; reflexivity].
  unfold sample_upper. destruct (String.eqb_spec s dotless_i) as [->|_].
  - discriminate Hs.
  - reflexivity.
Qed.

Ltac shaped :=
  repeat (constructor; [eexists; repeat split; reflexivity|]);
  try constructor.

Ltac unwanted :=
  let q := fresh "q" in
  let H := fresh "H" in
  intros q H; cbn [In] in H;
  repeat (destruct H as [<-|H]; [intros [W|W]; discriminate W|]);
  destruct H.

(** The spec's example: entries red/1, black/5, diamond/9 give 5. *)
Lemma game_version_first_match_witness :
  parse_pokemon_game_version (holding pikachu)
  = (Ok (JInt 5), holding pikachu).
Proof.
  apply (game_version_first_match (holding pikachu)
           [version_entry "red" 1; version_entry "black" 5;
            version_entry "diamond" 9]
           [("red", JInt 1)] [("diamond", JInt 9)] "black" (JInt 5)).
  - reflexivity.
  - shaped.
  - unwanted.
  - right. reflexivity.
Defined.

Lemma game_version_no_match_witness :
  parse_pokemon_game_version (holding odd) = (Ok JNull, holding odd) /\
  JNull <> JInt 0 /\
  (forall e : exn, fst (parse_pokemon_game_version (holding odd)) <> Err e).
Proof.
  apply (game_version_no_match (holding odd)
           [version_entry "red" 1; version_entry "blue" 2]
           [("red", JInt 1); ("blue", JInt 2)]).
  - reflexivity.
  - shaped.
  - unwanted.
Defined.

Example stats_hp_attack :
  fst (parse_pokemon_stats (holding pikachu))
  = Ok [(JStr "hp", JInt 35); (JStr "attack", JInt 55)].
Proof. reflexivity. Qed.

Example stats_repeated_hp :
  fst (parse_pokemon_stats (holding odd))
  = Ok [(JStr "hp", JInt 40); (JStr "attack", JInt 55)].
Proof. reflexivity. Qed.

Lemma stats_last_write_wins_witness :
  exists d : dict,
    parse_pokemon_stats (holding odd) = (Ok d, holding odd) /\
    (forall n,
       dict_get d (JStr n)
       = last_value n [("hp", JInt 35); ("attack", JInt 55); ("hp", JInt 40)])
    /\
    (forall k, In k (dict_keys d) <->
               exists n, k = JStr n /\
                 In n (map fst [("hp", JInt 35); ("attack", JInt 55);
                                ("hp", JInt 40)])).
Proof.
  apply (stats_last_write_wins (holding odd)
           [stat_item "hp" 35; stat_item "attack" 55; stat_item "hp" 40]).
  - reflexivity.
  - shaped.
Defined.

Lemma stats_key_order_first_occurrence_witness :
  exists d : dict,
    parse_pokemon_stats (holding odd) = (Ok d, holding odd) /\
    dict_keys d
    = map JStr
        (first_occurrences []
           (map fst [("hp", JInt 35); ("attack", JInt 55); ("hp", JInt 40)]))
    /\
    (forall n,
       dict_get d (JStr n)
       = last_value n [("hp", JInt 35); ("attack", JInt 55); ("hp", JInt 40)]).
Proof.
  apply (stats_key_order_first_occurrence (holding odd)
           [stat_item "hp" 35; stat_item "attack" 55; stat_item "hp" 40]).
  - reflexivity.
  - shaped.
Defined.

Example first_occurrences_hp_attack_hp :
  first_occurrences [] ["hp"; "attack"; "hp"] = ["hp"; "attack"].
Proof. reflexivity. Qed.

Example title_electric : AsciiCase.title "electric" = "Electric".
Proof. reflexivity. Qed.

Example title_mr_mime : AsciiCase.title "mr-mime" = "Mr-Mime".
Proof. reflexivity. Qed.

Example types_electric :
  fst (parse_pokemon_types (holding pikachu)) = Ok [JStr "Electric"].
Proof. reflexivity. Qed.

(** C4 as stated fails: with the rest of each word left unchanged the type
    name "fIRE" would come out as "FIRE", and [parse_pokemon_types] returns
    "Fire". *)
Lemma types_rest_unchanged_counterexample :
  fst (parse_pokemon_types (holding odd)) = Ok [JStr "Fire"] /\
  map AsciiCase.title_rest_unchanged ["fIRE"] = ["FIRE"] /\
  fst (parse_pokemon_types (holding odd))
  <> Ok (map JStr (map AsciiCase.title_rest_unchanged ["fIRE"])).
Proof.
  split; [reflexivity|]. split; [reflexivity|]. cbv. discriminate.
Qed.

(** The spec's example: the type name "electric" comes out as
    "Electric". *)
Lemma types_title_cased_witness :
  parse_pokemon_types (holding pikachu)
  = (Ok [JStr "Electric"], holding pikachu) /\
  String.length "Electric" = String.length "electric" /\
  (exists x, String.get 0 "Electric" = Some x /\ N_of_ascii x = 69%N) /\
  (exists x, String.get 1 "Electric" = Some x /\ N_of_ascii x = 108%N).
Proof.
  pose proof (types_title_cased (U := sample_methods) (holding pikachu)
                [type_item "electric"] ["electric"] eq_refl
                ltac:(shaped)) as T.
  destruct T as (Hrun & _ & Hascii).
  destruct (Hascii sample_methods_ascii "electric" (or_introl eq_refl)
              eq_refl) as (Hlen & Hget).
  split; [exact Hrun|]. split; [exact Hlen|]. split.
  - exact (Hget 0 "e"%char eq_refl).
  - exact (Hget 1 "l"%char eq_refl).
Defined.

Example capitalize_tackle :
  AsciiCase.capitalize (PyStr.replace PyStr.newline PyStr.space tackle_text)
  = "Tackle attack".
Proof. reflexivity. Qed.

Example moves_tackle :
  fst (parse_pokemon_moves (serve tackle_detail) (holding pikachu))
  = Ok [{| name := JStr "tackle"; description := JStr "Tackle attack";
           accuracy := JNull; dmg_type := JStr "physical" |}].
Proof. reflexivity. Qed.

Ltac tackle_entry :=
  first
    [ reflexivity
    | exists (JObj [("name", JStr "tackle"); ("url", JStr tackle_url)]);
      repeat split; reflexivity
    | exists (JObj [("flavor_text", JStr tackle_text)]),
             [JObj [("flavor_text", JStr "other")]],
             (JObj [("name", JStr "physical")]);
      repeat split; reflexivity ].


(** C6 as stated fails where the accuracy field is absent: the detail
    document has no such key and [parse_pokemon_moves] raises [KeyError]. *)
Lemma moves_accuracy_absent_counterexample :
  getitem no_accuracy_detail "accuracy" = Err KeyError /\
  parse_pokemon_moves (serve no_accuracy_detail) (holding odd)
  = (Err KeyError,
     logged (holding odd) (JStr "https://pokeapi.co/api/v2/move/45/")).
Proof. split; reflexivity. Qed.

(** A null accuracy is passed through as [None]. *)
Lemma moves_accuracy_verbatim_witness :
  exists r : Move,
    parse_pokemon_moves (serve tackle_detail) (holding pikachu)
    = (Ok ([] ++ r :: []), logged (holding pikachu) (JStr tackle_url)) /\
    accuracy r = JNull /\
    getitem tackle_detail "accuracy" = Ok (accuracy r).
Proof.
  apply (moves_accuracy_verbatim (serve tackle_detail)
           (holding pikachu) (holding pikachu)
           (logged (holding pikachu) (JStr tackle_url))
           [] [] (move_item "tackle" tackle_url) (JStr "tackle")
           (JStr tackle_url) tackle_detail tackle_text JNull
           (JStr "physical") [] []); tackle_entry.
Defined.

Lemma moves_empty_flavor_text_raises_witness :
  parse_pokemon_moves (serve bare_detail) (holding pikachu)
  = (Err IndexError, logged (holding pikachu) (JStr tackle_url)).
Proof.
  apply (moves_empty_flavor_text_raises (serve bare_detail)
           (holding pikachu) (holding pikachu)
           [] [] (move_item "tackle" tackle_url) (JStr "tackle")
           (JStr tackle_url) bare_detail []); tackle_entry.
Defined.

Example request_path_Pikachu :
  request_path "Pikachu" = "https://pokeapi.co/api/v2/pokemon/pikachu".
Proof. reflexivity. Qed.

(** C7 as stated fails outside ASCII: the dotless i and the letter I
    differ in nothing but letter case, the upper case of the one being the
    other, and [str.lower] keeps the one and turns the other into i, so the
    two names are requested at different paths. *)
Lemma fetch_path_dotless_i_counterexample :
  str_upper dotless_i = "I" /\
  str_lower dotless_i = dotless_i /\
  str_lower "I" = "i" /\
  differ_only_in_case dotless_i "I" /\
  request_path dotless_i <> request_path "I".
Proof.
  split; [reflexivity|]. split; [reflexivity|]. split; [reflexivity|].
  split; [left; reflexivity|]. cbv. discriminate.
Qed.

(** The spec's example: "Pikachu" and "pikachu". *)
Lemma fetch_path_ignores_case_witness :
  request_path "Pikachu" = "https://pokeapi.co/api/v2/pokemon/pikachu" /\
  request_path "Pikachu" = request_path "pikachu" /\
  (exists l : string,
      request_path "Pikachu" = (base_url ++ l)%string /\
      String.length l = String.length "Pikachu" /\
      forall j c, String.get j "Pikachu" = Some c ->
        exists x, String.get j l = Some x /\
          N_of_ascii x = AsciiCase.lower_code (N_of_ascii c)) /\
  snd (Pokemon_init (serve pikachu) "Pikachu" [])
  = [] ++ [JStr (request_path "Pikachu")] /\
  snd (Pokemon_init (serve pikachu) "Pikachu" [])
  = snd (Pokemon_init (serve pikachu) "pikachu" []).
Proof.
  split; [reflexivity|].
  apply (fetch_path_ignores_case (U := sample_methods) (serve pikachu)
           "Pikachu" "pikachu" [] sample_methods_ascii eq_refl eq_refl).
  left. reflexivity.
Defined.

(* ================================================================== *)
(** ** The rest of the parser on the sample documents *)

Lemma abilities_title_cased_witness :
  parse_pokemon_abilities (holding raichu)
  = (Ok [JStr "Static"; JStr "Lightning-Rod"], holding raichu) /\
  String.length "Lightning-Rod" = String.length "lightning-rod" /\
  (exists x, String.get 10 "Lightning-Rod" = Some x /\ N_of_ascii x = 82%N).
Proof.
  pose proof (abilities_title_cased (U := sample_methods) (holding raichu)
                [ability_item "static" false;
                 ability_item "lightning-rod" true]
                ["static"; "lightning-rod"] eq_refl ltac:(shaped)) as T.
  destruct T as (Hrun & _ & Hascii).
  destruct (Hascii sample_methods_ascii "lightning-rod"
              (or_intror (or_introl eq_refl)) eq_refl) as (Hlen & Hget).
  split; [exact Hrun|]. split; [exact Hlen|].
  exact (Hget 10 "r"%char eq_refl).
Defined.

Example abilities_raichu :
  fst (parse_pokemon_abilities (holding raichu))
  = Ok [JStr "Static"; JStr "Lightning-Rod"].
Proof. reflexivity. Qed.

Lemma missing_list_raises_witness :
  parse_pokemon_moves unreachable (holding (JObj []))
  = (Err KeyError, holding (JObj [])) /\
  parse_pokemon_types (holding (JObj [])) = (Err KeyError, holding (JObj []))
  /\
  parse_pokemon_stats (holding (JArr [])) = (Err TypeError, holding (JArr []))
  /\
  parse_pokemon_abilities (holding (JObj []))
  = (Err KeyError, holding (JObj [])) /\
  parse_pokemon_game_version (holding JNull) = (Err TypeError, holding JNull).
Proof.
  split; [|split; [|split; [|split]]].
  - apply (missing_list_raises unreachable (holding (JObj [])) KeyError).
    reflexivity.
  - apply (missing_list_raises unreachable (holding (JObj [])) KeyError).
    reflexivity.
  - apply (missing_list_raises unreachable (holding (JArr [])) TypeError).
    reflexivity.
  - apply (missing_list_raises unreachable (holding (JObj [])) KeyError).
    reflexivity.
  - apply (missing_list_raises unreachable (holding JNull) TypeError).
    reflexivity.
Defined.

Lemma game_version_ignores_tail_witness :
  parse_pokemon_game_version (holding raichu) = (Ok (JInt 26), holding raichu).
Proof.
  apply (game_version_ignores_tail (holding raichu)
           [version_entry "red" 1] [JNull; JInt 7] [("red", JInt 1)]
           (version_entry "diamond" 26) "diamond" (JInt 26)).
  - reflexivity.
  - shaped.
  - unwanted.
  - eexists; repeat split; reflexivity.
  - left. reflexivity.
Defined.

Lemma game_version_sound_witness :
  (exists e v n,
      In e [version_entry "red" 1; version_entry "black" 5;
            version_entry "diamond" 9] /\
      getitem e "version" = Ok v /\
      getitem v "name" = Ok (JStr n) /\ wanted n /\
      getitem e "game_index" = Ok (JInt 5)) \/
  (JInt 5 = JNull /\
   Forall (fun e => exists v nm,
               getitem e "version" = Ok v /\ getitem v "name" = Ok nm /\
               in_strs nm ["diamond"; "black"] = false)
     [version_entry "red" 1; version_entry "black" 5;
      version_entry "diamond" 9]).
Proof.
  apply (game_version_sound (holding pikachu) (holding pikachu)); reflexivity.
Defined.

Lemma stats_dict_proper_witness :
  distinct_keys (dict_keys [(JStr "hp", JInt 40); (JStr "attack", JInt 55)])
  /\
  Forall (fun x => hashable x = true)
    (dict_keys [(JStr "hp", JInt 40); (JStr "attack", JInt 55)]) /\
  (forall k v,
     In (k, v) [(JStr "hp", JInt 40); (JStr "attack", JInt 55)] ->
     dict_get [(JStr "hp", JInt 40); (JStr "attack", JInt 55)] k = Some v).
Proof.
  apply (stats_dict_proper (holding odd) (holding odd)). reflexivity.
Defined.

(** Two moves answered, and the same two moves when the first answer has
    no flavor text. *)
Lemma moves_requests_in_order_witness :
  (exists urls,
      Forall2 url_of
        [move_item "tackle" tackle_url; move_item "thunder" thunder_url]
        urls /\
      [JStr tackle_url; JStr thunder_url]
      = requests_log (holding raichu) ++ urls /\
      Forall2 named_after
        [move_item "tackle" tackle_url; move_item "thunder" thunder_url]
        [{| name := JStr "tackle"; description := JStr "Tackle attack";
            accuracy := JNull; dmg_type := JStr "physical" |};
         {| name := JStr "thunder"; description := JStr "Tackle attack";
            accuracy := JNull; dmg_type := JStr "physical" |}]) /\
  (exists pre e post done s1 urls,
      [move_item "tackle" tackle_url; move_item "thunder" thunder_url]
      = pre ++ e :: post /\
      moves_loop (serve bare_detail) pre [] (holding raichu) = (Ok done, s1)
      /\
      Forall2 url_of pre urls /\
      requests_log s1 = requests_log (holding raichu) ++ urls /\
      parse_move (serve bare_detail) e s1
      = (Err IndexError, logged (holding raichu) (JStr tackle_url)) /\
      (logged (holding raichu) (JStr tackle_url) = s1 \/
       exists u, url_of e u /\
         logged (holding raichu) (JStr tackle_url) = logged s1 u)).
Proof.
  split.
  - exact (moves_requests_in_order (U := sample_methods)
             (serve tackle_detail) (holding raichu)
             [move_item "tackle" tackle_url; move_item "thunder" thunder_url]
             eq_refl).
  - exact (moves_requests_in_order (U := sample_methods)
             (serve bare_detail) (holding raichu)
             [move_item "tackle" tackle_url; move_item "thunder" thunder_url]
             eq_refl).
Defined.

Example moves_raichu_stops :
  parse_pokemon_moves (serve bare_detail) (holding raichu)
  = (Err IndexError, logged (holding raichu) (JStr tackle_url)).
Proof. reflexivity. Qed.

Example moves_raichu_log :
  requests_log (snd (parse_pokemon_moves (serve tackle_detail)
                       (holding raichu)))
  = [JStr tackle_url; JStr thunder_url].
Proof. reflexivity. Qed.

Lemma moves_transport_failure_witness :
  parse_pokemon_moves unreachable (holding pikachu)
  = (Err RequestException, logged (holding pikachu) (JStr tackle_url)).
Proof.
  apply (moves_transport_failure unreachable (holding pikachu)
           (holding pikachu) [] [] (move_item "tackle" tackle_url)
           (JStr "tackle") (JStr tackle_url) [] RequestException);
    tackle_entry.
Defined.

Lemma moves_refetched_witness :
  exists urls,
    Forall2 url_of [move_item "tackle" tackle_url] urls /\
    requests_log (logged (holding pikachu) (JStr tackle_url))
    = requests_log (holding pikachu) ++ urls /\
    requests_log
      (logged (logged (holding pikachu) (JStr tackle_url)) (JStr tackle_url))
    = requests_log (holding pikachu) ++ urls ++ urls.
Proof.
  apply (moves_refetched (serve tackle_detail) (holding pikachu)
           (logged (holding pikachu) (JStr tackle_url))
           (logged (logged (holding pikachu) (JStr tackle_url))
              (JStr tackle_url))
           [move_item "tackle" tackle_url]
           [{| name := JStr "tackle"; description := JStr "Tackle attack";
               accuracy := JNull; dmg_type := JStr "physical" |}]
           [{| name := JStr "tackle"; description := JStr "Tackle attack";
               accuracy := JNull; dmg_type := JStr "physical" |}]);
    reflexivity.
Defined.

Lemma Pokemon_serves_fetched_document_witness :
  request_path "Pikachu" = "https://pokeapi.co/api/v2/pokemon/pikachu" /\
  (exists p,
     Pokemon_init (serve pikachu) "Pikachu" []
     = (Ok p, [] ++ [JStr (request_path "Pikachu")]) /\
     pk_name p = "Pikachu" /\
     consistent p /\
     pokemon_data (parser p) = pikachu /\
     forall l,
       let st := {| self := PokemonParser_init pikachu; requests_log := l |} in
       fst (get_moves (serve pikachu) p l)
       = fst (parse_pokemon_moves (serve pikachu) st) /\
       fst (get_types p l) = fst (parse_pokemon_types st) /\
       fst (get_stats p l) = fst (parse_pokemon_stats st) /\
       fst (get_abilities p l) = fst (parse_pokemon_abilities st) /\
       fst (get_game_version p l) = fst (parse_pokemon_game_version st)) /\
  Pokemon_init unreachable "Pikachu" []
  = (Err RequestException, [] ++ [JStr (request_path "Pikachu")]).
Proof.
  split; [|split].
  - exact (proj1 (Pokemon_serves_fetched_document (U := sample_methods)
                    (serve pikachu) "Pikachu" [])).
  - apply (proj1 (proj2 (Pokemon_serves_fetched_document
                           (U := sample_methods) (serve pikachu)
                           "Pikachu" [])) pikachu).
    reflexivity.
  - apply (proj2 (proj2 (Pokemon_serves_fetched_document
                           (U := sample_methods) unreachable
                           "Pikachu" [])) RequestException).
    reflexivity.
Defined.

Example Pikachu_game_version :
  match Pokemon_init (serve pikachu) "Pikachu" [] with
  | (Ok p, l) => fst (get_game_version p l) = Ok (JInt 5)
  | (Err _, _) => False
  end.
Proof. reflexivity. Qed.

Lemma Pokemon_views_ignore_case_witness :
  exists q,
    Pokemon_init (serve pikachu) "pikachu" []
    = (Ok q, [JStr (request_path "Pikachu")]) /\
    pk_name q = "pikachu" /\
    parser q = {| pokemon_data := pikachu |} /\
    forall l',
      let p := {| pk_name := "Pikachu";
                  data_fetcher := {| fetcher_pk_name := "Pikachu";
                                     pokemon_json := pikachu |};
                  parser := {| pokemon_data := pikachu |} |} in
      fst (get_moves (serve pikachu) q l')
      = fst (get_moves (serve pikachu) p l') /\
      snd (snd (get_moves (serve pikachu) q l'))
      = snd (snd (get_moves (serve pikachu) p l')) /\
      fst (get_types q l') = fst (get_types p l') /\
      fst (get_stats q l') = fst (get_stats p l') /\
      fst (get_abilities q l') = fst (get_abilities p l') /\
      fst (get_game_version q l') = fst (get_game_version p l').
Proof.
  apply (Pokemon_views_ignore_case (serve pikachu) "Pikachu" "pikachu" []
           [JStr (request_path "Pikachu")]
           {| pk_name := "Pikachu";
              data_fetcher := {| fetcher_pk_name := "Pikachu";
                                 pokemon_json := pikachu |};
              parser := {| pokemon_data := pikachu |} |}).
  - reflexivity.
  - reflexivity.
Defined.

Lemma name_not_string_raises_witness :
  let doc :=
    JObj [("abilities",
           JArr [ability_item "static" false;
                 JObj [("ability", JObj [("name", JNull)])]]);
          ("types",
           JArr [type_item "electric";
                 JObj [("type", JObj [("name", JNull)])];
                 type_item "flying"])] in
  parse_pokemon_types (holding doc) = (Err AttributeError, holding doc) /\
  parse_pokemon_abilities (holding doc) = (Err AttributeError, holding doc).
Proof.
  intros doc. split.
  - apply (proj1 (name_not_string_raises (holding doc)
                    [type_item "electric"] [type_item "flying"]
                    ["electric"] (JObj [("type", JObj [("name", JNull)])])
                    (JObj [("name", JNull)]) JNull
                    ltac:(discriminate) eq_refl));
      [reflexivity | shaped | reflexivity].
  - apply (proj2 (name_not_string_raises (holding doc)
                    [ability_item "static" false] []
                    ["static"] (JObj [("ability", JObj [("name", JNull)])])
                    (JObj [("name", JNull)]) JNull
                    ltac:(discriminate) eq_refl));
      [reflexivity | shaped | reflexivity].
Defined.

Lemma move_description_one_line_witness :
  exists (r : Move) (d : string),
    parse_move (serve tackle_detail) (move_item "tackle" tackle_url)
      (holding pikachu)
    = (Ok r, logged (holding pikachu) (JStr tackle_url)) /\
    description r = JStr d /\
    forall j, String.get j d <> Some PyStr.newline.
Proof.
  apply (move_description_one_line (U := sample_methods)
           (serve tackle_detail) (holding pikachu)
           (move_item "tackle" tackle_url) (JStr "tackle") (JStr tackle_url)
           tackle_detail tackle_text JNull (JStr "physical")
           sample_methods_ascii eq_refl); tackle_entry.
Defined.
